(** * Object tasks of core-js-101: a shallow embedding of [src/05-objects-tasks.js]

    The file follows the source from top to bottom: [Rectangle], the JSON
    helpers [getJSON] and [fromJSON], the class [CssCreator] and the facade
    object [cssSelectorBuilder].

    JavaScript objects that are mutated through a reference are kept in an
    explicit store ([Heap]); a method body is a state transformer on the
    object [this] points to, and a [throw] leaves every assignment made
    before it in place. *)

From Stdlib Require Import ZArith String Ascii List Sorted Floats.
From Stdlib Require Import DecimalZ DecimalPos DecimalFacts.
From stdpp Require Import base list strings sorting.


(** ** Completions: a call either returns a value or throws *)

Inductive exn : Type :=
| Error (message : string)   (* [Error(message)] as built by [throw Error(...)] *)
| SyntaxError                (* raised by [JSON.parse] *)
| TypeError.                 (* raised by the runtime on a bad receiver *)

Inductive completion (A : Type) : Type :=
| Return (a : A)
| Throw (e : exn).
Arguments Return {A} a.
Arguments Throw {A} e.

Definition returns {A} (c : completion A) : bool :=
  match c with Return _ => true | Throw _ => false end.

(** [Array.prototype.indexOf]: position of the first element equal to [x],
    or [-1]. *)
Fixpoint indexOf_from (i : Z) (x : string) (l : list string) : Z :=
  match l with
  | [] => (-1)%Z
  | y :: l' => if decide (x = y) then i else indexOf_from (i + 1)%Z x l'
  end.

Definition indexOf (x : string) (l : list string) : Z := indexOf_from 0 x l.

(** ** function Rectangle

    JavaScript numbers are IEEE 754 binary64 values and [*] is their
    multiplication: [float] and [PrimFloat.mul]. *)

Abbreviation number := float.

(** The object literal the function returns. The assignments to
    [this.width] and [this.height] are read back by the literal;
    [getArea] closes over the parameters. *)
Record RectangleObject : Type := {
  width : number;
  height : number;
  getArea : unit → number
}.

Definition Rectangle (w h : number) : RectangleObject :=
  let this_width := w in
  let this_height := h in
  {| width := this_width;
     height := this_height;
     getArea := λ _, (w * h)%float |}.

(** ** The runtime's JSON object

    [getJSON] and [fromJSON] delegate to [JSON.stringify] and [JSON.parse],
    which the JavaScript runtime provides. They are modelled here after
    ECMA-262 on the data a JSON text can denote:
    - numbers are the integers (printed in decimal); fractions and
      exponents in a text are outside the model and rejected;
    - strings are sequences of code units below 256; a [\u] escape of a
      larger code unit is outside the model and rejected;
    - an object is its list of own properties in property order (keys that
      are array indices, which JavaScript lists first, are taken to be
      written in that order already).
    A value handed to [JSON.stringify] can also hold a number that is not
    finite ([NaN], [Infinity], [-Infinity]); such a number has no JSON text
    of its own and is written as [null].

    The model agrees with the runtime on the values of [plain] (and of
    [data]) below and on the texts written for them. On a text with a
    fraction, an exponent, an integer of 2^53 or more or a [\u] escape above
    [00ff] the runtime returns a value where [parse] answers [SyntaxError];
    no statement of this file is about such a text. *)

Module JSON.

(** The numbers that are not finite. *)
Inductive not_finite : Type := NaN | PositiveInfinity | NegativeInfinity.

#[local] Unset Elimination Schemes.
Inductive value : Type :=
| JNull
| JBool (b : bool)
| JNumber (n : Z)
| JNotFinite (x : not_finite)
| JString (s : string)
| JArray (items : list value)
| JObject (props : list (string * value)).
#[local] Set Elimination Schemes.

Definition quote : ascii := "034".
Definition backslash : ascii := "\".

(** *** JSON.stringify *)

Fixpoint digits (d : Decimal.uint) : list ascii :=
  match d with
  | Decimal.Nil => []
  | Decimal.D0 d' => "0"%char :: digits d'
  | Decimal.D1 d' => "1"%char :: digits d'
  | Decimal.D2 d' => "2"%char :: digits d'
  | Decimal.D3 d' => "3"%char :: digits d'
  | Decimal.D4 d' => "4"%char :: digits d'
  | Decimal.D5 d' => "5"%char :: digits d'
  | Decimal.D6 d' => "6"%char :: digits d'
  | Decimal.D7 d' => "7"%char :: digits d'
  | Decimal.D8 d' => "8"%char :: digits d'
  | Decimal.D9 d' => "9"%char :: digits d'
  end.

Definition serialize_number (n : Z) : list ascii :=
  match Z.to_int n with
  | Decimal.Pos d => digits d
  | Decimal.Neg d => "-"%char :: digits d
  end.

Definition hex_digit (n : N) : ascii :=
  ascii_of_N (if (n <? 10)%N then 48 + n else 87 + n).

(** QuoteJSONString, one code unit. *)
Definition escape_char (c : ascii) : list ascii :=
  match c with
  | "034"%char => [backslash; quote]
  | "\"%char => [backslash; backslash]
  | "008"%char => [backslash; "b"%char]
  | "012"%char => [backslash; "f"%char]
  | "010"%char => [backslash; "n"%char]
  | "013"%char => [backslash; "r"%char]
  | "009"%char => [backslash; "t"%char]
  | _ =>
      if (N_of_ascii c <? 32)%N
      then [backslash; "u"%char; "0"%char; "0"%char;
            hex_digit (N_of_ascii c / 16); hex_digit (N_of_ascii c mod 16)]
      else [c]
  end.

Fixpoint escape (s : string) : list ascii :=
  match s with
  | EmptyString => []
  | String c s' => escape_char c ++ escape s'
  end.

Definition serialize_string (s : string) : list ascii :=
  quote :: escape s ++ [quote].

Fixpoint serialize (v : value) : list ascii :=
  match v with
  | JNull => list_ascii_of_string "null"
  | JBool true => list_ascii_of_string "true"
  | JBool false => list_ascii_of_string "false"
  | JNumber n => serialize_number n
  | JNotFinite _ => list_ascii_of_string "null"
  | JString s => serialize_string s
  | JArray items =>
      "["%char ::
      (fix elements (l : list value) : list ascii :=
         match l with
         | [] => []
         | [x] => serialize x
         | x :: l' => serialize x ++ ","%char :: elements l'
         end) items ++ ["]"%char]
  | JObject props =>
      "{"%char ::
      (fix members (l : list (string * value)) : list ascii :=
         match l with
         | [] => []
         | [(k, x)] => serialize_string k ++ ":"%char :: serialize x
         | (k, x) :: l' =>
             serialize_string k ++ ":"%char :: serialize x ++ ","%char :: members l'
         end) props ++ ["}"%char]
  end.

Definition stringify (v : value) : string := string_of_list_ascii (serialize v).

(** *** JSON.parse *)

Fixpoint skip_ws (s : list ascii) : list ascii :=
  match s with
  | (" " :: r)%char => skip_ws r
  | ("009" :: r)%char => skip_ws r
  | ("010" :: r)%char => skip_ws r
  | ("013" :: r)%char => skip_ws r
  | _ => s
  end.

Definition digit_of (c : ascii) : option (Decimal.uint → Decimal.uint) :=
  match c with
  | "0"%char => Some Decimal.D0
  | "1"%char => Some Decimal.D1
  | "2"%char => Some Decimal.D2
  | "3"%char => Some Decimal.D3
  | "4"%char => Some Decimal.D4
  | "5"%char => Some Decimal.D5
  | "6"%char => Some Decimal.D6
  | "7"%char => Some Decimal.D7
  | "8"%char => Some Decimal.D8
  | "9"%char => Some Decimal.D9
  | _ => None
  end.

Fixpoint read_digits (s : list ascii) : Decimal.uint * list ascii :=
  match s with
  | [] => (Decimal.Nil, [])
  | c :: r =>
      match digit_of c with
      | Some D => let '(d, r') := read_digits r in (D d, r')
      | None => (Decimal.Nil, s)
      end
  end.

(** A number token: an optional minus sign, then [0] or a numeral without
    leading zero. A fraction or exponent part is outside the model. *)
Definition parse_number (s : list ascii) : option (value * list ascii) :=
  let '(negative, s1) :=
    match s with
    | ("-" :: r)%char => (true, r)
    | _ => (false, s)
    end in
  let '(d, rest) := read_digits s1 in
  match d with
  | Decimal.Nil => None
  | Decimal.D0 (Decimal.D0 _ | Decimal.D1 _ | Decimal.D2 _ | Decimal.D3 _
               | Decimal.D4 _ | Decimal.D5 _ | Decimal.D6 _ | Decimal.D7 _
               | Decimal.D8 _ | Decimal.D9 _) => None
  | _ =>
      match rest with
      | ("." :: _)%char | ("e" :: _)%char | ("E" :: _)%char => None
      | _ =>
          Some (JNumber (Z.of_int (if negative : bool then Decimal.Neg d
                                   else Decimal.Pos d)), rest)
      end
  end.

Definition hex_value (c : ascii) : option N :=
  let n := N_of_ascii c in
  if (48 <=? n)%N && (n <=? 57)%N then Some (n - 48)%N
  else if (97 <=? n)%N && (n <=? 102)%N then Some (n - 87)%N
  else if (65 <=? n)%N && (n <=? 70)%N then Some (n - 55)%N
  else None.

(** The characters of a string token after its opening quote, up to and
    including the closing quote. *)
Fixpoint parse_string_chars (s : list ascii) : option (string * list ascii) :=
  match s with
  | [] => None
  | c :: r =>
      if Ascii.eqb c quote then Some (EmptyString, r)
      else if Ascii.eqb c backslash then
        match r with
        | [] => None
        | e :: r' =>
            match e with
            | "034"%char => prod_map (String quote) id <$> parse_string_chars r'
            | "\"%char => prod_map (String backslash) id <$> parse_string_chars r'
            | "/"%char => prod_map (String "/"%char) id <$> parse_string_chars r'
            | "b"%char => prod_map (String "008"%char) id <$> parse_string_chars r'
            | "f"%char => prod_map (String "012"%char) id <$> parse_string_chars r'
            | "n"%char => prod_map (String "010"%char) id <$> parse_string_chars r'
            | "r"%char => prod_map (String "013"%char) id <$> parse_string_chars r'
            | "t"%char => prod_map (String "009"%char) id <$> parse_string_chars r'
            | "u"%char =>
                match r' with
                | h1 :: h2 :: h3 :: h4 :: r'' =>
                    match hex_value h1, hex_value h2, hex_value h3, hex_value h4 with
                    | Some 0%N, Some 0%N, Some n3, Some n4 =>
                        prod_map (String (ascii_of_N (16 * n3 + n4))) id
                          <$> parse_string_chars r''
                    | _, _, _, _ => None
                    end
                | _ => None
                end
            | _ => None
            end
        end
      else if (N_of_ascii c <? 32)%N then None
      else prod_map (String c) id <$> parse_string_chars r
  end.

(** [CreateDataProperty] in text order: a repeated key keeps its place and
    takes the later value. *)
Fixpoint set_property (k : string) (v : value) (props : list (string * value))
    : list (string * value) :=
  match props with
  | [] => [(k, v)]
  | (k', v') :: props' =>
      if decide (k' = k) then (k, v) :: props'
      else (k', v') :: set_property k v props'
  end.

Definition props_of_members (members : list (string * value)) : list (string * value) :=
  fold_left (λ props kv, set_property kv.1 kv.2 props) members [].

Fixpoint parse_value (fuel : nat) (s : list ascii) {struct fuel}
    : option (value * list ascii) :=
  match fuel with
  | 0 => None
  | S fuel' =>
      match skip_ws s with
      | ("n" :: "u" :: "l" :: "l" :: r)%char => Some (JNull, r)
      | ("t" :: "r" :: "u" :: "e" :: r)%char => Some (JBool true, r)
      | ("f" :: "a" :: "l" :: "s" :: "e" :: r)%char => Some (JBool false, r)
      | ("034" :: r)%char => prod_map JString id <$> parse_string_chars r
      | ("[" :: r)%char =>
          match skip_ws r with
          | ("]" :: r')%char => Some (JArray [], r')
          | _ => prod_map JArray id <$> parse_elements fuel' r
          end
      | ("{" :: r)%char =>
          match skip_ws r with
          | ("}" :: r')%char => Some (JObject [], r')
          | _ =>
              prod_map (λ m, JObject (props_of_members m)) id
                <$> parse_members fuel' r
          end
      | s' => parse_number s'
      end
  end
with parse_elements (fuel : nat) (s : list ascii) {struct fuel}
    : option (list value * list ascii) :=
  match fuel with
  | 0 => None
  | S fuel' =>
      match parse_value fuel' s with
      | None => None
      | Some (v, r) =>
          match skip_ws r with
          | ("," :: r')%char => prod_map (cons v) id <$> parse_elements fuel' r'
          | ("]" :: r')%char => Some ([v], r')
          | _ => None
          end
      end
  end
with parse_members (fuel : nat) (s : list ascii) {struct fuel}
    : option (list (string * value) * list ascii) :=
  match fuel with
  | 0 => None
  | S fuel' =>
      match skip_ws s with
      | ("034" :: r)%char =>
          match parse_string_chars r with
          | None => None
          | Some (k, r1) =>
              match skip_ws r1 with
              | (":" :: r2)%char =>
                  match parse_value fuel' r2 with
                  | None => None
                  | Some (v, r3) =>
                      match skip_ws r3 with
                      | ("," :: r4)%char =>
                          prod_map (cons (k, v)) id <$> parse_members fuel' r4
                      | ("}" :: r4)%char => Some ([(k, v)], r4)
                      | _ => None
                      end
                  end
              | _ => None
              end
          end
      | _ => None
      end
  end.

(** The whole text must be one value, whitespace apart; anything else is a
    [SyntaxError]. No value needs more nested calls than the text has
    characters. *)
Definition parse (text : string) : completion value :=
  let s := list_ascii_of_string text in
  match parse_value (S (length s)) s with
  | Some (v, rest) =>
      match skip_ws rest with
      | [] => Return v
      | _ => Throw SyntaxError
      end
  | None => Throw SyntaxError
  end.

End JSON.

#[export] Instance completion_ret : MRet completion := λ A a, Return a.
#[export] Instance completion_bind : MBind completion := λ A B f c,
  match c with
  | Return a => f a
  | Throw e => Throw e
  end.

(** ** function getJSON *)

Definition getJSON (obj : JSON.value) : string := JSON.stringify obj.

(** ** function fromJSON

    A prototype is the table of the methods it defines. What
    [Object.setPrototypeOf] returns is its first argument: an object or an
    array with its prototype replaced, a number, string or boolean as it
    was; on [null] it throws a [TypeError]. *)

Definition Prototype (Method : Type) : Type := list (string * Method).

Inductive js_value (Method : Type) : Type :=
| Primitive (v : JSON.value)
| WithPrototype (proto : Prototype Method) (data : JSON.value).
Arguments Primitive {Method} v.
Arguments WithPrototype {Method} proto data.

Definition Object_setPrototypeOf {Method} (o : JSON.value) (proto : Prototype Method)
    : completion (js_value Method) :=
  match o with
  | JSON.JNull => Throw TypeError
  | JSON.JObject _ | JSON.JArray _ => Return (WithPrototype proto o)
  | _ => Return (Primitive o)
  end.

Definition fromJSON {Method} (proto : Prototype Method) (json : string)
    : completion (js_value Method) :=
  objFromJson ← JSON.parse json;
  Object_setPrototypeOf objFromJson proto.

(** Property access [o.name] on an object with own data properties [props]
    and prototype [proto]: an own property first, then a method of the
    prototype. *)
Fixpoint lookup_property {A} (name : string) (l : list (string * A)) : option A :=
  match l with
  | [] => None
  | (k, x) :: l' => if decide (k = name) then Some x else lookup_property name l'
  end.

Definition get_property {Method} (proto : Prototype Method)
    (props : list (string * JSON.value)) (name : string)
    : option (JSON.value + Method) :=
  match lookup_property name props with
  | Some v => Some (inl v)
  | None => inr <$> lookup_property name proto
  end.

(** References to [CssCreator] instances. *)
Abbreviation loc := nat.

(** ** class CssCreator *)

Module CssCreator.

(** The fields assigned by the constructor. [value] is [undefined]
    ([None]) whenever the facade builds the instance. *)
Record t : Type := mk {
  value : option string;
  template : string;
  counterE : nat;
  counterId : nat;
  counterPe : nat;
  sort : list string;
  sequence : list string
}.

Definition constructor (v : option string) : t :=
  {| value := v;
     template := EmptyString;
     counterE := 0;
     counterId := 0;
     counterPe := 0;
     sort := [];
     sequence := ["element"; "id"; "class"; "attr"; "pseudoClass"; "pseudoElement"] |}.

(** Method bodies: state of [this] in, completion and state of [this] out. *)
Definition M (A : Type) : Type := t → completion A * t.

#[global] Instance M_ret : MRet M := λ A a st, (Return a, st).
#[global] Instance M_bind : MBind M := λ A B f m st,
  match m st with
  | (Return a, st') => f a st'
  | (Throw e, st') => (Throw e, st')
  end.

Definition throw {A} (e : exn) : M A := λ st, (Throw e, st).
Definition get {A} (field : t → A) : M A := λ st, (Return (field st), st).

(** Assignments to one field. *)
Definition with_template (s : string) (st : t) : t :=
  mk (value st) s (counterE st) (counterId st) (counterPe st) (sort st) (sequence st).
Definition with_counterE (n : nat) (st : t) : t :=
  mk (value st) (template st) n (counterId st) (counterPe st) (sort st) (sequence st).
Definition with_counterId (n : nat) (st : t) : t :=
  mk (value st) (template st) (counterE st) n (counterPe st) (sort st) (sequence st).
Definition with_counterPe (n : nat) (st : t) : t :=
  mk (value st) (template st) (counterE st) (counterId st) n (sort st) (sequence st).
Definition with_sort (l : list string) (st : t) : t :=
  mk (value st) (template st) (counterE st) (counterId st) (counterPe st) l (sequence st).

Definition set_template (s : string) : M unit := λ st, (Return (), with_template s st).
Definition set_counterE (n : nat) : M unit := λ st, (Return (), with_counterE n st).
Definition set_counterId (n : nat) : M unit := λ st, (Return (), with_counterId n st).
Definition set_counterPe (n : nat) : M unit := λ st, (Return (), with_counterPe n st).
Definition set_sort (l : list string) : M unit := λ st, (Return (), with_sort l st).

(** [this.sort.push(x)] *)
Definition sort_push (x : string) : M unit :=
  l ← get sort; set_sort (l ++ [x]).

(** [this.template += s] *)
Definition template_append (s : string) : M unit :=
  tpl ← get template; set_template (tpl +:+ s).

Definition order_message : string :=
  "Selector parts should be arranged in the following order: element, id, class, attribute, pseudo-class, pseudo-element".

Definition duplicate_message : string :=
  "Element, id and pseudo-element should not occur more then one time inside the selector".

(** [this.sequence.indexOf(x)] where [x] was read from an array slot:
    an empty slot reads as [undefined], which is found nowhere. *)
Definition indexOf_slot (x : option string) (l : list string) : Z :=
  match x with
  | Some s => indexOf s l
  | None => (-1)%Z
  end.

Definition checkValid (selector : string) : M unit :=
  srt ← get sort;
  if decide (1 < length srt) then
    let prevSelector := srt !! (length srt - 2) in
    sq ← get sequence;
    if decide (indexOf selector sq < indexOf_slot prevSelector sq)%Z
    then throw (Error order_message)
    else mret ()
  else mret ().

Definition element (this : loc) (v : string) : M loc :=
  sort_push "element";;
  checkValid "element";;
  c ← get counterE; set_counterE (c + 1);;
  c ← get counterE;
  if decide (1 < c) then throw (Error duplicate_message)
  else template_append v;; mret this.

Definition id (this : loc) (v : string) : M loc :=
  sort_push "id";;
  checkValid "id";;
  c ← get counterId; set_counterId (c + 1);;
  c ← get counterId;
  if decide (1 < c) then throw (Error duplicate_message)
  else template_append ("#" +:+ v);; mret this.

Definition class (this : loc) (v : string) : M loc :=
  sort_push "class";;
  checkValid "class";;
  template_append ("." +:+ v);;
  mret this.

Definition attr (this : loc) (v : string) : M loc :=
  sort_push "attr";;
  checkValid "attr";;
  template_append ("[" +:+ v +:+ "]");;
  mret this.

Definition pseudoClass (this : loc) (v : string) : M loc :=
  sort_push "pseudoClass";;
  checkValid "pseudoClass";;
  template_append (":" +:+ v);;
  mret this.

Definition pseudoElement (this : loc) (v : string) : M loc :=
  sort_push "pseudoElement";;
  checkValid "pseudoElement";;
  c ← get counterPe; set_counterPe (c + 1);;
  c ← get counterPe;
  if decide (1 < c) then throw (Error duplicate_message)
  else template_append ("::" +:+ v);; mret this.

Definition combine (this : loc) (selector1 combinator selector2 : string) : M loc :=
  template_append (selector1 +:+ " " +:+ combinator +:+ " " +:+ selector2);;
  mret this.

Definition stringify (this : loc) : M string := get template.

End CssCreator.

(** ** The store of instances *)

Abbreviation Heap := (list CssCreator.t).
Definition HM (A : Type) : Type := Heap → completion A * Heap.

#[export] Instance HM_ret : MRet HM := λ A a h, (Return a, h).
#[export] Instance HM_bind : MBind HM := λ A B f m h,
  match m h with
  | (Return a, h') => f a h'
  | (Throw e, h') => (Throw e, h')
  end.

(** [new CssCreator(v)]: a fresh reference to a freshly initialised object. *)
Definition new_CssCreator (v : option string) : HM loc := λ h,
  (Return (length h), h ++ [CssCreator.constructor v]).

(** [l.m(...)]: run the method body on the object [l] points to and write
    the object back, also when the body throws. *)
Definition invoke {A} (l : loc) (m : loc → CssCreator.M A) : HM A := λ h,
  match h !! l with
  | Some st => let '(r, st') := m l st in (r, <[l := st']> h)
  | None => (Throw TypeError, h)
  end.

(** ** const cssSelectorBuilder *)

Module cssSelectorBuilder.

Definition element (v : string) : HM loc :=
  Css ← new_CssCreator None;
  invoke Css (λ this, CssCreator.element this v);;
  mret Css.

Definition id (v : string) : HM loc :=
  Css ← new_CssCreator None;
  invoke Css (λ this, CssCreator.id this v);;
  mret Css.

Definition class (v : string) : HM loc :=
  Css ← new_CssCreator None;
  invoke Css (λ this, CssCreator.class this v);;
  mret Css.

Definition attr (v : string) : HM loc :=
  Css ← new_CssCreator None;
  invoke Css (λ this, CssCreator.attr this v);;
  mret Css.

Definition pseudoClass (v : string) : HM loc :=
  Css ← new_CssCreator None;
  invoke Css (λ this, CssCreator.pseudoClass this v);;
  mret Css.

Definition pseudoElement (v : string) : HM loc :=
  Css ← new_CssCreator None;
  invoke Css (λ this, CssCreator.pseudoElement this v);;
  mret Css.

Definition combine (selector1 : loc) (combinator : string) (selector2 : loc) : HM loc :=
  Css ← new_CssCreator None;
  s1 ← invoke selector1 CssCreator.stringify;
  s2 ← invoke selector2 CssCreator.stringify;
  invoke Css (λ this, CssCreator.combine this s1 combinator s2);;
  mret Css.

End cssSelectorBuilder.

(** ** Fragment calls as data

    A chain [builder.k0(v0).k1(v1)...] is a facade call followed by method
    calls on the reference each call returns; a throw ends the chain. *)

Inductive kind : Type := Element | Id | Class | Attr | PseudoClass | PseudoElement.

#[export] Instance kind_eq_dec : EqDecision kind.
Proof. solve_decision. Defined.

Definition fragment : Type := kind * string.

(** The string each method pushes on [this.sort]. *)
Definition tag (k : kind) : string :=
  match k with
  | Element => "element"
  | Id => "id"
  | Class => "class"
  | Attr => "attr"
  | PseudoClass => "pseudoClass"
  | PseudoElement => "pseudoElement"
  end.

Definition method (c : fragment) (this : loc) : CssCreator.M loc :=
  match c.1 with
  | Element => CssCreator.element this c.2
  | Id => CssCreator.id this c.2
  | Class => CssCreator.class this c.2
  | Attr => CssCreator.attr this c.2
  | PseudoClass => CssCreator.pseudoClass this c.2
  | PseudoElement => CssCreator.pseudoElement this c.2
  end.

Definition facade (c : fragment) : HM loc :=
  match c.1 with
  | Element => cssSelectorBuilder.element c.2
  | Id => cssSelectorBuilder.id c.2
  | Class => cssSelectorBuilder.class c.2
  | Attr => cssSelectorBuilder.attr c.2
  | PseudoClass => cssSelectorBuilder.pseudoClass c.2
  | PseudoElement => cssSelectorBuilder.pseudoElement c.2
  end.

Fixpoint calls (l : loc) (cs : list fragment) : HM loc :=
  match cs with
  | [] => mret l
  | c :: cs' => l' ← invoke l (method c); calls l' cs'
  end.

Definition chain (c0 : fragment) (cs : list fragment) : HM loc :=
  l ← facade c0; calls l cs.

Definition call_stringify (l : loc) : HM string := invoke l CssCreator.stringify.

(** ** Vocabulary of the specification *)

(** The order every instance carries in [this.sequence]. *)
Definition kinds_order : list string :=
  CssCreator.sequence (CssCreator.constructor None).

(** Rank of a kind: its position in [kinds_order]. *)
Definition rank (k : kind) : Z := indexOf (tag k) kinds_order.

(** Rendered form of a fragment: value, #value, .value, [value], :value, ::value. *)
Definition render (c : fragment) : string :=
  match c.1 with
  | Element => c.2
  | Id => "#" +:+ c.2
  | Class => "." +:+ c.2
  | Attr => "[" +:+ c.2 +:+ "]"
  | PseudoClass => ":" +:+ c.2
  | PseudoElement => "::" +:+ c.2
  end.

Fixpoint concat_strings (l : list string) : string :=
  match l with
  | [] => EmptyString
  | s :: l' => s +:+ concat_strings l'
  end.

Definition ranks (cs : list fragment) : list Z := (λ c : fragment, rank c.1) <$> cs.

(** Adjacent ranks never go down. *)
Definition nondecreasing (cs : list fragment) : Prop := Sorted Z.le (ranks cs).

Definition occurrences (k : kind) (cs : list fragment) : nat :=
  length (filter (λ c : fragment, c.1 = k) cs).

(** The kinds limited to one occurrence. *)
Definition unique_kind (k : kind) : bool :=
  match k with
  | Element | Id | PseudoElement => true
  | _ => false
  end.

(** ** The stages of one fragment call

    Every fragment method runs the same three stages on [this]: push the
    tag, bump the counter (element, id and pseudoElement only), append the
    rendered text. The functions below name the state after each stage. *)

Definition pushed (k : kind) (st : CssCreator.t) : CssCreator.t :=
  CssCreator.with_sort (CssCreator.sort st ++ [tag k]) st.

Definition counter (k : kind) (st : CssCreator.t) : nat :=
  match k with
  | Element => CssCreator.counterE st
  | Id => CssCreator.counterId st
  | PseudoElement => CssCreator.counterPe st
  | _ => 0
  end.

Definition counted (k : kind) (st : CssCreator.t) : CssCreator.t :=
  match k with
  | Element => CssCreator.with_counterE (CssCreator.counterE st + 1) st
  | Id => CssCreator.with_counterId (CssCreator.counterId st + 1) st
  | PseudoElement => CssCreator.with_counterPe (CssCreator.counterPe st + 1) st
  | _ => st
  end.

Definition appended (s : string) (st : CssCreator.t) : CssCreator.t :=
  CssCreator.with_template (CssCreator.template st +:+ s) st.

(** The test of [checkValid] read on the state before the push: the slot
    [sort.length - 2] after the push is the last slot before it. *)
Definition order_ok (k : kind) (st : CssCreator.t) : bool :=
  match last (CssCreator.sort st) with
  | None => true
  | Some p =>
      bool_decide (indexOf p (CssCreator.sequence st)
                   ≤ indexOf (tag k) (CssCreator.sequence st))%Z
  end.

Definition order_error : exn := Error CssCreator.order_message.
Definition duplicate_error : exn := Error CssCreator.duplicate_message.

(** State of [this] after one call, and after a list of calls, that return. *)
Definition after_call (c : fragment) (st : CssCreator.t) : CssCreator.t :=
  appended (render c) (counted c.1 (pushed c.1 st)).

Definition after_calls (cs : list fragment) (st : CssCreator.t) : CssCreator.t :=
  fold_left (λ st c, after_call c st) cs st.

(** The states an instance can be in: built by the constructor, then any
    method calls, whether they return or throw. *)
Inductive reachable : CssCreator.t → Prop :=
| reach_new (v : option string) :
    reachable (CssCreator.constructor v)
| reach_fragment (st : CssCreator.t) (c : fragment) (this : loc) :
    reachable st → reachable (method c this st).2
| reach_combine (st : CssCreator.t) (this : loc) (s1 comb s2 : string) :
    reachable st → reachable (CssCreator.combine this s1 comb s2 st).2.

(** The global form of the order test, written from the specification's
    words (the whole of [kindsSeen], here [this.sort], is non-decreasing in
    rank), to be compared with [CssCreator.checkValid], which looks at the
    last two entries only. *)
Definition checkValid_global (selector : string) : CssCreator.M unit :=
  srt ← CssCreator.get CssCreator.sort;
  sq ← CssCreator.get CssCreator.sequence;
  if decide (StronglySorted Z.le ((λ p, indexOf p sq) <$> srt))
  then mret ()
  else CssCreator.throw (Error CssCreator.order_message).

(** ** Operations a caller can run on one instance

    Whatever a method call does, the caller can catch the throw and go on
    using the reference: [perform_all] keeps running on the store left by
    each call. *)

Inductive operation : Type :=
| OpFragment (c : fragment)             (* [r.k(v)] *)
| OpCombine (s1 comb s2 : string)       (* [r.combine(s1, comb, s2)] *)
| OpStringify.                          (* [r.stringify()] *)

Definition perform (r : loc) (op : operation) (h : Heap) : Heap :=
  match op with
  | OpFragment c => (invoke r (method c) h).2
  | OpCombine s1 comb s2 =>
      (invoke r (λ this, CssCreator.combine this s1 comb s2) h).2
  | OpStringify => (invoke r CssCreator.stringify h).2
  end.

Definition perform_all (r : loc) (ops : list operation) (h : Heap) : Heap :=
  fold_left (λ h op, perform r op h) ops h.

(** ** Vocabulary of the JSON round trip *)

(** Values that are the data of a JavaScript object tree: numbers are safe
    integers and no object lists a key twice. *)
#[local] Unset Elimination Schemes.
Inductive plain : JSON.value → Prop :=
| plain_null : plain JSON.JNull
| plain_bool b : plain (JSON.JBool b)
| plain_number n : (- 2 ^ 53 < n < 2 ^ 53)%Z → plain (JSON.JNumber n)
| plain_string s : plain (JSON.JString s)
| plain_array items : Forall plain items → plain (JSON.JArray items)
| plain_object props :
    NoDup props.*1 → Forall (λ kv, plain kv.2) props → plain (JSON.JObject props).
#[local] Set Elimination Schemes.

(** The values [getJSON] is given: as [plain], and a number may also be
    one that is not finite. *)
#[local] Unset Elimination Schemes.
Inductive data : JSON.value → Prop :=
| data_null : data JSON.JNull
| data_bool b : data (JSON.JBool b)
| data_number n : (- 2 ^ 53 < n < 2 ^ 53)%Z → data (JSON.JNumber n)
| data_not_finite x : data (JSON.JNotFinite x)
| data_string s : data (JSON.JString s)
| data_array items : Forall data items → data (JSON.JArray items)
| data_object props :
    NoDup props.*1 → Forall (λ kv, data kv.2) props → data (JSON.JObject props).
#[local] Set Elimination Schemes.


(** Nested calls of the parser a value needs. *)
Fixpoint weight (v : JSON.value) : nat :=
  match v with
  | JSON.JArray items =>
      S ((fix sum (l : list JSON.value) : nat :=
            match l with
            | [] => 0
            | x :: l' => S (weight x + sum l')
            end) items)
  | JSON.JObject props =>
      S ((fix sum (l : list (string * JSON.value)) : nat :=
            match l with
            | [] => 0
            | kv :: l' => S (weight kv.2 + sum l')
            end) props)
  | _ => 1
  end.

(** What can follow a value inside a text the serializer wrote. *)
Definition delimited (rest : list ascii) : Prop :=
  match rest with
  | [] => True
  | c :: _ => c = ","%char ∨ c = "]"%char ∨ c = "}"%char
  end.

(** The two inner loops of [JSON.serialize], by name. *)
Fixpoint serialize_elements (l : list JSON.value) : list ascii :=
  match l with
  | [] => []
  | [x] => JSON.serialize x
  | x :: l' => JSON.serialize x ++ ","%char :: serialize_elements l'
  end.

Fixpoint serialize_members (l : list (string * JSON.value)) : list ascii :=
  match l with
  | [] => []
  | [(k, x)] => JSON.serialize_string k ++ ":"%char :: JSON.serialize x
  | (k, x) :: l' =>
      JSON.serialize_string k ++ ":"%char :: JSON.serialize x
      ++ ","%char :: serialize_members l'
  end.

Fixpoint weight_elements (l : list JSON.value) : nat :=
  match l with
  | [] => 0
  | x :: l' => S (weight x + weight_elements l')
  end.

Fixpoint weight_members (l : list (string * JSON.value)) : nat :=
  match l with
  | [] => 0
  | kv :: l' => S (weight kv.2 + weight_members l')
  end.

(** First characters of a value in a text. *)
Definition starts_value (c : ascii) : bool :=
  match c with
  | "n"%char | "t"%char | "f"%char | "034"%char | "["%char | "{"%char | "-"%char
  | "0"%char | "1"%char | "2"%char | "3"%char | "4"%char | "5"%char | "6"%char
  | "7"%char | "8"%char | "9"%char => true
  | _ => false
  end.

Definition starts_number (c : ascii) : bool :=
  match c with
  | "-"%char
  | "0"%char | "1"%char | "2"%char | "3"%char | "4"%char | "5"%char | "6"%char
  | "7"%char | "8"%char | "9"%char => true
  | _ => false
  end.

(** A numeral as [Z.to_int] writes it: not empty, no leading zero. *)
Definition numeral (d : Decimal.uint) : Prop :=
  match d with
  | Decimal.Nil => False
  | Decimal.D0 d' => d' = Decimal.Nil
  | _ => True
  end.


(** ** Vocabulary of the further properties *)

(** When a chain is accepted: ranks never go down and element, id and
    pseudoElement occur at most once. *)
Definition accepted (cs : list fragment) : Prop :=
  nondecreasing cs
  ∧ occurrences Element cs ≤ 1
  ∧ occurrences Id cs ≤ 1
  ∧ occurrences PseudoElement cs ≤ 1.

(** A completion with its reference moved by [n] places in the store. *)
Definition relocate (n : nat) (c : completion loc) : completion loc :=
  match c with
  | Return l => Return (n + l)
  | Throw e => Throw e
  end.

(** Number of entries of [this.sort] equal to [s]. *)
Definition count_tag (s : string) (l : list string) : nat :=
  length (filter (λ x, x = s) l).

(** [st'] holds everything [st] held: the text and [sort] of [st] are
    prefixes of those of [st'], no counter went down, [sequence] and [value]
    are the same. *)
Definition extends (st st' : CssCreator.t) : Prop :=
  (∃ u, CssCreator.template st' = CssCreator.template st +:+ u)
  ∧ CssCreator.sort st `prefix_of` CssCreator.sort st'
  ∧ CssCreator.counterE st ≤ CssCreator.counterE st'
  ∧ CssCreator.counterId st ≤ CssCreator.counterId st'
  ∧ CssCreator.counterPe st ≤ CssCreator.counterPe st'
  ∧ CssCreator.sequence st' = CssCreator.sequence st
  ∧ CssCreator.value st' = CssCreator.value st.

(** A text made of JSON whitespace only (possibly empty). *)
Definition blank (text : string) : Prop :=
  Forall (λ c, c = " "%char ∨ c = "009"%char ∨ c = "010"%char ∨ c = "013"%char)
    (list_ascii_of_string text).

(** The text one operation adds: the rendered fragment when the fragment
    call returns, nothing when it throws, the joined selectors for
    [combine], nothing for [stringify]. *)
Definition contribution (r : loc) (op : operation) (h : Heap) : string :=
  match op with
  | OpFragment c =>
      if returns (invoke r (method c) h).1 then render c else EmptyString
  | OpCombine s1 comb s2 => s1 +:+ " " +:+ comb +:+ " " +:+ s2
  | OpStringify => EmptyString
  end.

Fixpoint contributions (r : loc) (ops : list operation) (h : Heap) : list string :=
  match ops with
  | [] => []
  | op :: ops' => contribution r op h :: contributions r ops' (perform r op h)
  end.

(** * Properties *)

Section FragmentCall.

Import CssCreator.

Lemma checkValid_after_push (sel : string) (st : t) (x : string) :
  checkValid sel (with_sort (sort st ++ [x]) st)
  = match last (sort st) with
    | None => (Return (), with_sort (sort st ++ [x]) st)
    | Some p =>
        if decide (indexOf sel (sequence st) < indexOf p (sequence st))%Z
        then (Throw order_error, with_sort (sort st ++ [x]) st)
        else (Return (), with_sort (sort st ++ [x]) st)
    end.
Proof.
  unfold checkValid, get, mbind, M_bind. cbn [sort sequence with_sort].
  destruct (sort st) as [|y l] using rev_ind; [reflexivity|].
  clear IHl. rewrite last_snoc, !length_app. cbn [length].
  destruct (decide (1 < length l + 1 + 1)) as [_|]; [|lia].
  replace (length l + 1 + 1 - 2) with (length l) by lia.
  rewrite lookup_app_l by (rewrite length_app; cbn; lia).
  rewrite lookup_app_r by lia. rewrite Nat.sub_diag.
  cbn [lookup list_lookup indexOf_slot sequence with_sort].
  case_decide; reflexivity.
Qed.

(** Runs the straight-line part of a method body. *)
Ltac run_body :=
  cbv beta iota delta
    [mbind M_bind mret M_ret get throw set_template set_counterE set_counterId
     set_counterPe set_sort sort_push template_append appended];
  cbn [value template counterE counterId counterPe sort sequence
       with_template with_counterE with_counterId with_counterPe with_sort].

(** One fragment call, in closed form. *)
Lemma method_unfold (c : fragment) (this : loc) (st : t) :
  method c this st
  = if order_ok c.1 st then
      if unique_kind c.1 && bool_decide (1 ≤ counter c.1 st)
      then (Throw duplicate_error, counted c.1 (pushed c.1 st))
      else (Return this, appended (render c) (counted c.1 (pushed c.1 st)))
    else (Throw order_error, pushed c.1 st).
Proof.
  destruct c as [k v]. unfold method, order_ok, pushed. cbn [fst snd].
  destruct k; cbn [tag unique_kind andb counter counted render fst snd];
    unfold element, id, class, attr, pseudoClass, pseudoElement, sort_push;
    unfold mbind at 1; unfold M_bind at 1;
    unfold mbind at 1; unfold M_bind at 1; unfold get at 1; unfold set_sort at 1;
    unfold mbind at 1; unfold M_bind at 1;
    rewrite checkValid_after_push;
    destruct (last (sort st)) as [p|];
    repeat case_decide; repeat case_bool_decide; try lia; try reflexivity;
    run_body; case_decide; first [lia | reflexivity].
Qed.

End FragmentCall.

Section Store.

Lemma invoke_lookup {A} (l : loc) (m : loc → CssCreator.M A) (h : Heap)
    (st : CssCreator.t) :
  h !! l = Some st →
  invoke l m h = ((m l st).1, <[l := (m l st).2]> h).
Proof. intros Hl. unfold invoke. rewrite Hl. by destruct (m l st). Qed.

Lemma invoke_fresh {A} (m : loc → CssCreator.M A) (h : Heap) (st : CssCreator.t) :
  invoke (length h) m (h ++ [st])
  = ((m (length h) st).1, h ++ [(m (length h) st).2]).
Proof.
  rewrite (invoke_lookup _ _ _ st) by apply list_lookup_middle, eq_refl.
  f_equal. rewrite insert_app_r_alt by lia. by rewrite Nat.sub_diag.
Qed.

Lemma call_stringify_lookup (l : loc) (h : Heap) (st : CssCreator.t) :
  h !! l = Some st →
  call_stringify l h = (Return (CssCreator.template st), h).
Proof.
  intros Hl. unfold call_stringify. rewrite (invoke_lookup _ _ _ st Hl).
  cbn. by rewrite list_insert_id.
Qed.

Lemma facade_unfold (c : fragment) (h : Heap) :
  facade c h
  = match method c (length h) (CssCreator.constructor None) with
    | (Return _, st) => (Return (length h), h ++ [st])
    | (Throw e, st) => (Throw e, h ++ [st])
    end.
Proof.
  destruct c as [k v].
  destruct k; unfold facade, method; cbn [fst snd];
    unfold cssSelectorBuilder.element, cssSelectorBuilder.id,
      cssSelectorBuilder.class, cssSelectorBuilder.attr,
      cssSelectorBuilder.pseudoClass, cssSelectorBuilder.pseudoElement;
    unfold mbind, HM_bind, new_CssCreator; rewrite invoke_fresh; cbn beta;
    match goal with |- context [(?x).1] => destruct x as [[?|?] ?] end;
    reflexivity.
Qed.

End Store.

Section Strings.

Lemma append_nil_l (s : string) : EmptyString +:+ s = s.
Proof. reflexivity. Qed.

Lemma append_cons (a : ascii) (s t : string) :
  String a s +:+ t = String a (s +:+ t).
Proof. reflexivity. Qed.

Lemma append_nil_r (s : string) : s +:+ EmptyString = s.
Proof. induction s as [|a s IH]; [done|]. by rewrite append_cons, IH. Qed.

Lemma append_assoc (s t u : string) : (s +:+ t) +:+ u = s +:+ (t +:+ u).
Proof.
  induction s as [|a s IH]; [done|]. by rewrite !append_cons, IH.
Qed.

End Strings.

Section Chains.

Import CssCreator.

Lemma after_call_sequence c st : sequence (after_call c st) = sequence st.
Proof. by destruct c as [[] v]. Qed.

Lemma after_call_sort c st : sort (after_call c st) = sort st ++ [tag c.1].
Proof. by destruct c as [[] v]. Qed.

Lemma after_call_template c st :
  template (after_call c st) = template st +:+ render c.
Proof. by destruct c as [[] v]. Qed.

Lemma after_call_counter c k st :
  unique_kind k = true →
  counter k (after_call c st)
  = counter k st + (if decide (c.1 = k) then 1 else 0).
Proof.
  destruct c as [[] v], k; intros Hk; try discriminate Hk;
    cbn; case_decide; try congruence; lia.
Qed.

Lemma after_calls_cons c cs st :
  after_calls (c :: cs) st = after_calls cs (after_call c st).
Proof. reflexivity. Qed.

Lemma after_calls_sequence cs st : sequence (after_calls cs st) = sequence st.
Proof.
  revert st. induction cs as [|c cs IH]; intros st; [done|].
  by rewrite after_calls_cons, IH, after_call_sequence.
Qed.

Lemma after_calls_sort cs st :
  sort (after_calls cs st) = sort st ++ ((λ c : fragment, tag c.1) <$> cs).
Proof.
  revert st. induction cs as [|c cs IH]; intros st.
  - cbn. by rewrite app_nil_r.
  - rewrite after_calls_cons, IH, after_call_sort. by rewrite <- app_assoc.
Qed.

Lemma after_calls_template cs st :
  template (after_calls cs st)
  = template st +:+ concat_strings (render <$> cs).
Proof.
  revert st. induction cs as [|c cs IH]; intros st.
  - cbn. by rewrite append_nil_r.
  - rewrite after_calls_cons, IH, after_call_template. cbn [fmap list_fmap concat_strings].
    by rewrite append_assoc.
Qed.

Lemma occurrences_cons k c cs :
  occurrences k (c :: cs)
  = (if decide (c.1 = k) then 1 else 0) + occurrences k cs.
Proof.
  unfold occurrences. rewrite filter_cons. by case_decide.
Qed.

Lemma after_calls_counter cs k st :
  unique_kind k = true →
  counter k (after_calls cs st) = counter k st + occurrences k cs.
Proof.
  intros Hk. revert st. induction cs as [|c cs IH]; intros st.
  - cbn. lia.
  - rewrite after_calls_cons, IH, after_call_counter, occurrences_cons by done. lia.
Qed.

(** With the standard [sequence], the order test compares ranks. *)
Lemma order_ok_last k0 k st :
  sequence st = kinds_order →
  last (sort st) = Some (tag k0) →
  order_ok k st = bool_decide (rank k0 ≤ rank k)%Z.
Proof. intros Hseq Hlast. unfold order_ok, rank. by rewrite Hlast, Hseq. Qed.

Lemma calls_nil l h : calls l [] h = (Return l, h).
Proof. reflexivity. Qed.

Lemma calls_cons l c cs h st :
  h !! l = Some st →
  calls l (c :: cs) h
  = match method c l st with
    | (Return l', st') => calls l' cs (<[l := st']> h)
    | (Throw e, st') => (Throw e, <[l := st']> h)
    end.
Proof.
  intros Hl. cbn [calls]. unfold mbind, HM_bind.
  rewrite (invoke_lookup _ _ _ st Hl). by destruct (method c l st) as [[?|?] ?].
Qed.

(** A call whose two checks pass returns [this]. *)
Lemma method_returns c this st :
  order_ok c.1 st = true →
  (unique_kind c.1 = true → counter c.1 st = 0) →
  method c this st = (Return this, after_call c st).
Proof.
  intros Hord Hcnt. rewrite method_unfold, Hord.
  destruct (unique_kind c.1); [|done].
  rewrite Hcnt by done. reflexivity.
Qed.

Lemma calls_returns cs : ∀ (l : loc) (h : Heap) st,
  h !! l = Some st →
  sequence st = kinds_order →
  Sorted Z.le (ranks cs) →
  (∀ c, head cs = Some c → order_ok c.1 st = true) →
  (∀ k, unique_kind k = true → counter k st + occurrences k cs ≤ 1) →
  calls l cs h = (Return l, <[l := after_calls cs st]> h).
Proof.
  induction cs as [|c cs IH]; intros l h st Hl Hseq Hsorted Hhead Hcnt.
  - rewrite calls_nil. cbn. by rewrite list_insert_id.
  - rewrite (calls_cons _ _ _ _ st Hl), method_returns; cycle 1.
    { by apply Hhead. }
    { intros Hu. specialize (Hcnt _ Hu). rewrite occurrences_cons in Hcnt.
      rewrite decide_True in Hcnt by done. lia. }
    assert (Hlen : l < length h) by by eapply lookup_lt_Some.
    rewrite (IH l _ (after_call c st)).
    + by rewrite list_insert_insert_eq, after_calls_cons.
    + by apply list_lookup_insert_eq.
    + by rewrite after_call_sequence.
    + unfold ranks in *. cbn in Hsorted. by inversion Hsorted.
    + intros c' Hc'. destruct cs as [|c2 cs]; [done|]. injection Hc' as ->.
      rewrite (order_ok_last c.1).
      * apply bool_decide_eq_true. unfold ranks in Hsorted. cbn in Hsorted.
        inversion Hsorted as [|? ? _ Hhd]. by inversion Hhd.
      * by rewrite after_call_sequence.
      * by rewrite after_call_sort, last_snoc.
    + intros k Hk. specialize (Hcnt _ Hk).
      rewrite after_call_counter by done. rewrite occurrences_cons in Hcnt. lia.
Qed.

Lemma facade_returns c (h : Heap) :
  facade c h = (Return (length h), h ++ [after_call c (constructor None)]).
Proof.
  rewrite facade_unfold, method_returns; [done|done|].
  by destruct c as [[] v].
Qed.

Lemma chain_unfold c0 cs (h : Heap) :
  chain c0 cs h
  = calls (length h) cs (h ++ [after_call c0 (constructor None)]).
Proof. unfold chain, mbind, HM_bind. by rewrite facade_returns. Qed.

Lemma chain_returns c0 cs (h : Heap) :
  nondecreasing (c0 :: cs) →
  (∀ k, unique_kind k = true → occurrences k (c0 :: cs) ≤ 1) →
  chain c0 cs h
  = (Return (length h), h ++ [after_calls (c0 :: cs) (constructor None)]).
Proof.
  intros Hsorted Hcnt. rewrite chain_unfold.
  rewrite (calls_returns cs _ _ (after_call c0 (constructor None))).
  - rewrite insert_app_r_alt by lia. by rewrite Nat.sub_diag.
  - by apply list_lookup_middle.
  - by rewrite after_call_sequence.
  - unfold nondecreasing, ranks in Hsorted. cbn in Hsorted. by inversion Hsorted.
  - intros c Hc. destruct cs as [|c2 cs]; [done|]. injection Hc as ->.
    rewrite (order_ok_last c0.1).
    + apply bool_decide_eq_true. unfold nondecreasing, ranks in Hsorted.
      cbn in Hsorted. inversion Hsorted as [|? ? _ Hhd]. by inversion Hhd.
    + by rewrite after_call_sequence.
    + by rewrite after_call_sort, last_snoc.
  - intros k Hk. specialize (Hcnt _ Hk). rewrite occurrences_cons in Hcnt.
    rewrite after_call_counter by done.
    replace (counter k (constructor None)) with 0 by by destruct k. lia.
Qed.

End Chains.

Section ChainsInversion.

Import CssCreator.

Lemma Sorted_prefix (l1 l2 : list Z) : Sorted Z.le (l1 ++ l2) → Sorted Z.le l1.
Proof.
  intros Hs. apply StronglySorted_Sorted.
  apply (Sorted_StronglySorted Z.le) in Hs.
  by apply StronglySorted_app_1_l in Hs.
Qed.

Lemma nondecreasing_take c0 cs n :
  nondecreasing (c0 :: cs) → nondecreasing (c0 :: take n cs).
Proof.
  unfold nondecreasing, ranks. intros Hs.
  rewrite <- (take_drop n cs), fmap_cons, fmap_app, app_comm_cons in Hs.
  by apply Sorted_prefix in Hs.
Qed.

Lemma occurrences_take k c0 cs n :
  occurrences k (c0 :: take n cs) ≤ occurrences k (c0 :: cs).
Proof.
  rewrite !occurrences_cons. apply Nat.add_le_mono_l.
  unfold occurrences. rewrite <- (take_drop n cs) at 2.
  rewrite filter_app, length_app. lia.
Qed.

(** What a chain that returned tells about its calls. *)
Lemma calls_inv cs : ∀ (l : loc) (h : Heap) st k0 l' h',
  h !! l = Some st →
  sequence st = kinds_order →
  last (sort st) = Some (tag k0) →
  (∀ k, unique_kind k = true → counter k st ≤ 1) →
  calls l cs h = (Return l', h') →
  l' = l ∧ h' = <[l := after_calls cs st]> h
  ∧ Sorted Z.le (rank k0 :: ranks cs)
  ∧ ∀ k, unique_kind k = true → counter k st + occurrences k cs ≤ 1.
Proof.
  induction cs as [|c cs IH]; intros l h st k0 l' h' Hl Hseq Hlast Hle Hrun.
  - rewrite calls_nil in Hrun. injection Hrun as <- <-. repeat split.
    + cbn. by rewrite list_insert_id.
    + repeat constructor.
    + intros k Hk. specialize (Hle k Hk). cbn. lia.
  - rewrite (calls_cons _ _ _ _ st Hl), method_unfold in Hrun.
    rewrite (order_ok_last k0) in Hrun by done.
    case_bool_decide as Hord; [|done].
    destruct (unique_kind c.1 && bool_decide (1 ≤ counter c.1 st)) eqn:Hdup; [done|].
    assert (Hlen : l < length h) by by eapply lookup_lt_Some.
    apply (IH _ _ (after_call c st) c.1) in Hrun as (-> & -> & Hs & Hc).
    + repeat split.
      * by rewrite list_insert_insert_eq, after_calls_cons.
      * unfold ranks in *. cbn. constructor; [done|]. by constructor.
      * intros k Hk. specialize (Hc k Hk).
        rewrite after_call_counter in Hc by done. rewrite occurrences_cons. lia.
    + by apply list_lookup_insert_eq.
    + by rewrite after_call_sequence.
    + by rewrite after_call_sort, last_snoc.
    + intros k Hk. rewrite after_call_counter by done.
      specialize (Hle k Hk). destruct (decide (c.1 = k)) as [<-|]; [|lia].
      rewrite Hk in Hdup. cbn in Hdup. apply bool_decide_eq_false in Hdup. lia.
Qed.

Lemma chain_inv c0 cs (h : Heap) l h' :
  chain c0 cs h = (Return l, h') →
  l = length h
  ∧ h' = h ++ [after_calls (c0 :: cs) (constructor None)]
  ∧ nondecreasing (c0 :: cs)
  ∧ ∀ k, unique_kind k = true → occurrences k (c0 :: cs) ≤ 1.
Proof.
  rewrite chain_unfold. intros Hrun.
  apply (calls_inv _ _ _ (after_call c0 (constructor None)) c0.1)
    in Hrun as (-> & -> & Hs & Hc).
  - repeat split; [|done|].
    + rewrite insert_app_r_alt by lia. by rewrite Nat.sub_diag.
    + intros k Hk. specialize (Hc k Hk). rewrite after_call_counter in Hc by done.
      rewrite occurrences_cons. lia.
  - by apply list_lookup_middle.
  - by rewrite after_call_sequence.
  - by rewrite after_call_sort, last_snoc.
  - intros k Hk. rewrite after_call_counter by done.
    replace (counter k (constructor None)) with 0 by by destruct k.
    case_decide; lia.
Qed.

End ChainsInversion.

(** ** Valid chains *)

(** C1. A chain started by a facade entry point whose ranks never go down
    and in which element, id and pseudoElement occur at most once: every
    call (every prefix of the chain) returns, and returns the reference the
    facade created, and [stringify()] then returns the rendered forms of the
    fragments concatenated in call order. *)
Theorem valid_chain_succeeds (c0 : fragment) (cs : list fragment) (h : Heap) :
  nondecreasing (c0 :: cs) →
  occurrences Element (c0 :: cs) ≤ 1 →
  occurrences Id (c0 :: cs) ≤ 1 →
  occurrences PseudoElement (c0 :: cs) ≤ 1 →
  (∀ n, (chain c0 (take n cs) h).1 = Return (length h))
  ∧ ((chain c0 cs ≫= call_stringify) h).1
    = Return (concat_strings (render <$> c0 :: cs)).
Proof.
  intros Hs He Hi Hp.
  assert (Hu : ∀ k, unique_kind k = true → occurrences k (c0 :: cs) ≤ 1)
    by (by intros [] Hk).
  split.
  - intros n. rewrite chain_returns; [done| |].
    + by apply nondecreasing_take.
    + intros k Hk. etrans; [apply occurrences_take|by apply Hu].
  - unfold mbind, HM_bind. rewrite chain_returns by done.
    rewrite (call_stringify_lookup _ _ (after_calls (c0 :: cs) (CssCreator.constructor None)))
      by by apply list_lookup_middle.
    cbn [fst]. by rewrite after_calls_template.
Qed.

Lemma valid_chain_succeeds_witness :
  (∀ n, (chain (Id, "main") (take n [(Class, "container"); (Class, "editable")]) []).1
        = Return 0)
  ∧ ((chain (Id, "main") [(Class, "container"); (Class, "editable")] ≫= call_stringify) []).1
    = Return "#main.container.editable".
Proof.
  apply (valid_chain_succeeds (Id, "main") [(Class, "container"); (Class, "editable")] []).
  - unfold nondecreasing. vm_compute. repeat constructor; discriminate.
  - vm_compute. lia.
  - vm_compute. lia.
  - vm_compute. lia.
Defined.

Section FailingCalls.

Import CssCreator.

Lemma method_state_sequence c this st : sequence (method c this st).2 = sequence st.
Proof.
  rewrite method_unfold. destruct c as [[] v]; cbn [fst unique_kind andb];
    repeat case_match; reflexivity.
Qed.

Lemma method_state_sort c this st : sort (method c this st).2 = sort st ++ [tag c.1].
Proof.
  rewrite method_unfold. destruct c as [[] v]; cbn [fst unique_kind andb];
    repeat case_match; reflexivity.
Qed.

Lemma reachable_sequence st : reachable st → sequence st = kinds_order.
Proof.
  induction 1 as [v|st c this _ IH|st this s1 comb s2 _ IH]; [done| |done].
  by rewrite method_state_sequence.
Qed.

(** The order test of a call that follows a call of kind [k1]. *)
Lemma order_ok_after_method c1 this st k :
  sequence st = kinds_order →
  order_ok k (method c1 this st).2 = bool_decide (rank c1.1 ≤ rank k)%Z.
Proof.
  intros Hseq. apply order_ok_last.
  - by rewrite method_state_sequence.
  - by rewrite method_state_sort, last_snoc.
Qed.

Lemma invoke_method_lookup (h : Heap) l st c :
  h !! l = Some st →
  (invoke l (method c) h).2 !! l = Some (method c l st).2.
Proof.
  intros Hl. rewrite (invoke_lookup _ _ _ st Hl). cbn [snd].
  apply list_lookup_insert_eq. by eapply lookup_lt_Some.
Qed.

End FailingCalls.

(** ** Order violations *)

(** C2. On every builder, when a fragment call is followed by a call whose
    kind has strictly lower rank, the second call throws the error with the
    order message, whatever the first call did; the second call has then
    only recorded its tag: the counters and the text are as before it. *)
Theorem lower_rank_call_throws (h : Heap) (l : loc) (st : CssCreator.t)
    (c1 c2 : fragment) :
  h !! l = Some st →
  reachable st →
  (rank c2.1 < rank c1.1)%Z →
  ∃ st1 st2,
    (invoke l (method c1) h).2 !! l = Some st1
    ∧ invoke l (method c2) (invoke l (method c1) h).2
      = (Throw (Error "Selector parts should be arranged in the following order: element, id, class, attribute, pseudo-class, pseudo-element"),
         <[l := st2]> (invoke l (method c1) h).2)
    ∧ CssCreator.sort st2 = CssCreator.sort st1 ++ [tag c2.1]
    ∧ CssCreator.template st2 = CssCreator.template st1
    ∧ CssCreator.counterE st2 = CssCreator.counterE st1
    ∧ CssCreator.counterId st2 = CssCreator.counterId st1
    ∧ CssCreator.counterPe st2 = CssCreator.counterPe st1.
Proof.
  intros Hl Hreach Hlt.
  exists (method c1 l st).2, (pushed c2.1 (method c1 l st).2).
  split; [by apply invoke_method_lookup|].
  split; [|done].
  rewrite (invoke_lookup _ _ _ (method c1 l st).2) by by apply invoke_method_lookup.
  rewrite method_unfold, order_ok_after_method by by apply reachable_sequence.
  rewrite bool_decide_eq_false_2 by lia. reflexivity.
Qed.

Lemma lower_rank_call_throws_witness :
  ∃ st1 st2,
    (invoke 0 (method (Class, "a")) [CssCreator.constructor None]).2 !! 0 = Some st1
    ∧ invoke 0 (method (Element, "b"))
        (invoke 0 (method (Class, "a")) [CssCreator.constructor None]).2
      = (Throw (Error "Selector parts should be arranged in the following order: element, id, class, attribute, pseudo-class, pseudo-element"),
         <[0 := st2]> (invoke 0 (method (Class, "a")) [CssCreator.constructor None]).2)
    ∧ CssCreator.sort st2 = CssCreator.sort st1 ++ [tag (Element, "b").1]
    ∧ CssCreator.template st2 = CssCreator.template st1
    ∧ CssCreator.counterE st2 = CssCreator.counterE st1
    ∧ CssCreator.counterId st2 = CssCreator.counterId st1
    ∧ CssCreator.counterPe st2 = CssCreator.counterPe st1.
Proof.
  apply (lower_rank_call_throws [CssCreator.constructor None] 0
           (CssCreator.constructor None) (Class, "a") (Element, "b")).
  - reflexivity.
  - apply reach_new.
  - vm_compute. reflexivity.
Defined.

(** ** Failing calls and the text *)

(** C5. A fragment call that throws, with either error, leaves the text of
    the instance as it was: [stringify()] afterwards returns what it
    returned before. The tag pushed on [sort] stays, and so does the
    counter increment of a call that failed on a duplicate. *)
Theorem failed_call_keeps_text (h h' : Heap) (l : loc) (st : CssCreator.t)
    (c : fragment) (e : exn) :
  h !! l = Some st →
  invoke l (method c) h = (Throw e, h') →
  (call_stringify l h).1 = Return (CssCreator.template st)
  ∧ (call_stringify l h').1 = Return (CssCreator.template st)
  ∧ ∃ st', h' !! l = Some st'
      ∧ CssCreator.sort st' = CssCreator.sort st ++ [tag c.1]
      ∧ ((e = order_error
          ∧ ∀ k, counter k st' = counter k st)
         ∨ (e = duplicate_error
            ∧ counter c.1 st' = counter c.1 st + 1)).
Proof.
  intros Hl Hrun.
  assert (Hlen : l < length h) by by eapply lookup_lt_Some.
  rewrite (invoke_lookup _ _ _ st Hl), method_unfold in Hrun.
  split; [by rewrite (call_stringify_lookup _ _ st)|].
  destruct (order_ok c.1 st).
  - destruct (unique_kind c.1 && bool_decide (1 ≤ counter c.1 st)) eqn:Hdup; [|done].
    injection Hrun as <- <-.
    rewrite (call_stringify_lookup _ _ (counted c.1 (pushed c.1 st)))
      by by apply list_lookup_insert_eq.
    split; [by destruct c as [[] v]|].
    eexists. split; [by apply list_lookup_insert_eq|].
    split; [by destruct c as [[] v]|]. right. split; [done|].
    by destruct c as [[] v].
  - injection Hrun as <- <-.
    rewrite (call_stringify_lookup _ _ (pushed c.1 st)) by by apply list_lookup_insert_eq.
    split; [done|].
    eexists. split; [by apply list_lookup_insert_eq|].
    split; [done|]. left. split; [done|]. by intros [].
Qed.

Lemma failed_call_keeps_text_witness :
  (call_stringify 0 [after_call (Element, "a") (CssCreator.constructor None)]).1
  = Return "a"
  ∧ (call_stringify 0
       [counted Element (pushed Element
          (after_call (Element, "a") (CssCreator.constructor None)))]).1
    = Return "a"
  ∧ ∃ st',
      [counted Element (pushed Element
         (after_call (Element, "a") (CssCreator.constructor None)))] !! 0 = Some st'
      ∧ CssCreator.sort st' = ["element"] ++ [tag (Element, "b").1]
      ∧ ((duplicate_error = order_error
          ∧ ∀ k, counter k st'
                 = counter k (after_call (Element, "a") (CssCreator.constructor None)))
         ∨ (duplicate_error = duplicate_error
            ∧ counter (Element, "b").1 st' = 1 + 1)).
Proof.
  apply (failed_call_keeps_text
           [after_call (Element, "a") (CssCreator.constructor None)]
           [counted Element (pushed Element
              (after_call (Element, "a") (CssCreator.constructor None)))]
           0 (after_call (Element, "a") (CssCreator.constructor None))
           (Element, "b") duplicate_error).
  - reflexivity.
  - vm_compute. reflexivity.
Defined.

(** ** After a failure *)




Section Repeats.

Import CssCreator.

Lemma rank_inj k1 k2 : rank k1 = rank k2 → k1 = k2.
Proof. by destruct k1, k2. Qed.

Lemma last_cons_default {A} (x : A) (l : list A) :
  last (x :: l) = Some (default x (last l)).
Proof. rewrite last_cons. by destruct (last l). Qed.

(** In a chain that never goes down, no fragment outranks the last one. *)
Lemma rank_le_last c0 cs (c : fragment) :
  nondecreasing (c0 :: cs) →
  c ∈ c0 :: cs →
  (rank c.1 ≤ rank (default c0 (last cs)).1)%Z.
Proof.
  intros Hs Hin. pose proof (last_cons_default c0 cs) as Hlast.
  apply last_Some in Hlast as [l' Hl']. unfold nondecreasing, ranks in Hs.
  rewrite Hl' in Hs, Hin. rewrite fmap_app in Hs.
  apply (Sorted_StronglySorted Z.le) in Hs.
  apply elem_of_app in Hin as [Hin|Hin].
  - eapply (StronglySorted_app_1_elem_of _ _ _ _ _ Hs).
    + by apply (list_elem_of_fmap_2 (λ c : fragment, rank c.1)).
    + cbn. apply list_elem_of_here.
  - apply list_elem_of_singleton in Hin as ->. lia.
Qed.

Lemma occurrences_pos k cs :
  0 < occurrences k cs → ∃ c : fragment, c ∈ cs ∧ c.1 = k.
Proof.
  unfold occurrences. intros Hpos.
  destruct (filter (λ c : fragment, c.1 = k) cs) as [|c l] eqn:Hf; [cbn in Hpos; lia|].
  assert (Hin : c ∈ filter (λ c : fragment, c.1 = k) cs)
    by (rewrite Hf; apply list_elem_of_here).
  apply list_elem_of_filter in Hin as [? ?]. by exists c.
Qed.

Lemma occurrences_same_kind k k' (vs : list string) :
  k ≠ k' → occurrences k' ((λ v, (k, v)) <$> vs) = 0.
Proof.
  intros Hne. induction vs as [|v vs IH]; [done|].
  rewrite fmap_cons, occurrences_cons, IH. by rewrite decide_False.
Qed.

Lemma ranks_same_kind_sorted k (vs : list string) :
  Sorted Z.le (ranks ((λ v, (k, v)) <$> vs)).
Proof.
  induction vs as [|v vs IH]; [constructor|].
  rewrite fmap_cons. unfold ranks in *. rewrite fmap_cons. constructor; [done|].
  destruct vs; constructor. cbn. lia.
Qed.

End Repeats.

(** ** Repeated kinds *)

(** C3, as stated, fails: in [element('div').id('x').element('p')] the second
    call to [element] does not throw the duplicate error but the order
    error, because the order test comes first. *)
Lemma second_element_after_id_is_order_error :
  let h1 := (chain (Element, "div") [(Id, "x")] []).2 in
  (chain (Element, "div") [(Id, "x")] []).1 = Return 0
  ∧ (invoke 0 (method (Element, "p")) h1).1
    = Throw (Error "Selector parts should be arranged in the following order: element, id, class, attribute, pseudo-class, pseudo-element")
  ∧ (invoke 0 (method (Element, "p")) h1).1
    ≠ Throw (Error "Element, id and pseudo-element should not occur more then one time inside the selector").
Proof. repeat split; [reflexivity..|discriminate]. Qed.

(** C3, amended. On a chain whose calls so far returned, a further call to
    element, id or pseudoElement when that kind was already called throws:
    the duplicate error when the chain's last call is of that same kind,
    the order error when another kind was called since. After a call to
    class, attr or pseudoClass, any number of further calls of that same
    kind return. *)
Theorem repeated_kind_calls (h h' : Heap) (c0 : fragment) (cs : list fragment)
    (l : loc) (k : kind) :
  chain c0 cs h = (Return l, h') →
  (unique_kind k = true →
   0 < occurrences k (c0 :: cs) →
   ∀ v, (invoke l (method (k, v)) h').1
        = Throw (if decide ((default c0 (last cs)).1 = k)
                 then Error "Element, id and pseudo-element should not occur more then one time inside the selector"
                 else Error "Selector parts should be arranged in the following order: element, id, class, attribute, pseudo-class, pseudo-element"))
  ∧ (unique_kind k = false →
     (default c0 (last cs)).1 = k →
     ∀ vs, (calls l ((λ v, (k, v)) <$> vs) h').1 = Return l).
Proof.
  intros Hrun. apply chain_inv in Hrun as (-> & -> & Hs & Hu).
  set (st := after_calls (c0 :: cs) (CssCreator.constructor None)).
  assert (Hl : (h ++ [st]) !! length h = Some st) by by apply list_lookup_middle.
  assert (Hseq : CssCreator.sequence st = kinds_order)
    by by (unfold st; rewrite after_calls_sequence).
  assert (Hlast : last (CssCreator.sort st) = Some (tag (default c0 (last cs)).1)).
  { unfold st. rewrite after_calls_sort.
    change (CssCreator.sort (CssCreator.constructor None)) with (@nil string).
    by rewrite app_nil_l, fmap_last, last_cons_default. }
  split.
  - intros Hk Hpos v. rewrite (invoke_lookup _ _ _ st Hl). cbn [fst].
    rewrite method_unfold, (order_ok_last (default c0 (last cs)).1) by done.
    cbn [fst]. rewrite Hk. cbn [andb].
    assert (Hc : counter k st = occurrences k (c0 :: cs)).
    { unfold st. rewrite after_calls_counter by done. by destruct k. }
    apply occurrences_pos in Hpos as Hin. destruct Hin as (c & Hin & <-).
    apply (rank_le_last c0 cs c Hs) in Hin.
    case_decide as Heq.
    + rewrite Heq, bool_decide_eq_true_2 by lia.
      rewrite bool_decide_eq_true_2 by lia. done.
    + rewrite bool_decide_eq_false_2; [done|].
      intros Hle. apply Heq. apply rank_inj. lia.
  - intros Hk Heq vs.
    rewrite (calls_returns _ _ _ st); [done|done|done|..].
    + apply ranks_same_kind_sorted.
    + intros c Hc. destruct vs as [|v vs]; [done|]. injection Hc as <-.
      rewrite (order_ok_last (default c0 (last cs)).1) by done.
      cbn [fst]. rewrite Heq. apply bool_decide_eq_true. lia.
    + intros k' Hk'. rewrite occurrences_same_kind by (intros ->; congruence).
      unfold st. rewrite after_calls_counter by done.
      specialize (Hu k' Hk'). replace (counter k' (CssCreator.constructor None)) with 0
        by by destruct k'. lia.
Qed.

Lemma repeated_kind_calls_witness :
  (unique_kind Element = true →
   0 < occurrences Element [(Element, "table")] →
   ∀ v, (invoke 0 (method (Element, v))
           [after_call (Element, "table") (CssCreator.constructor None)]).1
        = Throw (if decide ((default (Element, "table") (last [])).1 = Element)
                 then Error "Element, id and pseudo-element should not occur more then one time inside the selector"
                 else Error "Selector parts should be arranged in the following order: element, id, class, attribute, pseudo-class, pseudo-element"))
  ∧ (unique_kind Element = false →
     (default (Element, "table") (last [])).1 = Element →
     ∀ vs, (calls 0 ((λ v, (Element, v)) <$> vs)
              [after_call (Element, "table") (CssCreator.constructor None)]).1
           = Return 0).
Proof.
  apply (repeated_kind_calls [] _ (Element, "table") [] 0 Element).
  vm_compute. reflexivity.
Defined.

(** ** The order test is local *)

(** C7. After any chain in which no call threw, the recorded kinds are
    those of the calls, their ranks are non-decreasing as a whole (every
    earlier rank is at most every later one), and for whatever kind is
    called next the test of [checkValid] against the preceding entry alone
    decides exactly as the global test over all entries. *)
Theorem local_check_is_global (h h' : Heap) (c0 : fragment) (cs : list fragment)
    (l : loc) :
  chain c0 cs h = (Return l, h') →
  ∃ st, h' !! l = Some st
    ∧ CssCreator.sort st = (λ c : fragment, tag c.1) <$> (c0 :: cs)
    ∧ StronglySorted Z.le (ranks (c0 :: cs))
    ∧ ∀ k, CssCreator.checkValid (tag k) (pushed k st)
           = checkValid_global (tag k) (pushed k st).
Proof.
  intros Hrun. apply chain_inv in Hrun as (-> & -> & Hs & _).
  set (st := after_calls (c0 :: cs) (CssCreator.constructor None)).
  exists st.
  assert (Hsort : CssCreator.sort st = (λ c : fragment, tag c.1) <$> (c0 :: cs)).
  { unfold st. by rewrite after_calls_sort. }
  assert (Hseq : CssCreator.sequence st = kinds_order).
  { unfold st. by rewrite after_calls_sequence. }
  apply (Sorted_StronglySorted Z.le) in Hs.
  split; [by apply list_lookup_middle|]. split; [done|]. split; [done|].
  intros k. unfold pushed. rewrite checkValid_after_push.
  unfold checkValid_global, CssCreator.get, CssCreator.throw, mbind,
    CssCreator.M_bind, mret, CssCreator.M_ret.
  cbn [CssCreator.sort CssCreator.sequence CssCreator.with_sort].
  rewrite Hseq, Hsort, fmap_last, last_cons_default. cbn [fmap option_fmap option_map].
  rewrite fmap_app, <- list_fmap_compose.
  change ((λ p, indexOf p kinds_order) ∘ (λ c : fragment, tag c.1) <$> c0 :: cs)
    with (ranks (c0 :: cs)).
  cbn [fmap list_fmap].
  change (indexOf (tag k) kinds_order) with (rank k).
  change (indexOf (tag (default c0 (last cs)).1) kinds_order)
    with (rank (default c0 (last cs)).1).
  destruct (decide (rank k < rank (default c0 (last cs)).1)%Z) as [Hlt|Hge].
  - rewrite decide_False; [done|]. intros Hss.
    assert ((rank (default c0 (last cs)).1 ≤ rank k)%Z); [|lia].
    apply (StronglySorted_app_1_elem_of _ _ _ _ _ Hss).
    + apply (list_elem_of_fmap_2 (λ c : fragment, rank c.1)).
      eapply last_Some_elem_of, last_cons_default.
    + apply list_elem_of_here.
  - rewrite decide_True; [done|].
    apply StronglySorted_app. split_and!; [|done|repeat constructor].
    intros x1 x2 Hx1 ->%list_elem_of_singleton.
    apply list_elem_of_fmap in Hx1 as (c & -> & Hc).
    assert (Hle : (rank c.1 ≤ rank (default c0 (last cs)).1)%Z); [|lia].
    apply rank_le_last; [|done].
    unfold nondecreasing. by apply StronglySorted_Sorted.
Qed.

Lemma local_check_is_global_witness :
  ∃ st, [after_calls [(Id, "main"); (Class, "container")] (CssCreator.constructor None)]
          !! 0 = Some st
    ∧ CssCreator.sort st
      = (λ c : fragment, tag c.1) <$> [(Id, "main"); (Class, "container")]
    ∧ StronglySorted Z.le (ranks [(Id, "main"); (Class, "container")])
    ∧ ∀ k, CssCreator.checkValid (tag k) (pushed k st)
           = checkValid_global (tag k) (pushed k st).
Proof.
  apply (local_check_is_global [] _ (Id, "main") [(Class, "container")] 0).
  vm_compute. reflexivity.
Defined.

(** Without the proviso the two tests part: after [class('a').id('b')] has
    thrown, the caller can call [id('c')] on the same instance; the test of
    [checkValid] passes, the global one does not. *)
Example local_check_after_a_throw :
  let st1 := (method (Class, "a") 0 (CssCreator.constructor None)).2 in
  let st2 := (method (Id, "b") 0 st1).2 in
  (method (Id, "b") 0 st1).1 = Throw order_error
  ∧ (CssCreator.checkValid "id" (pushed Id st2)).1 = Return ()
  ∧ (checkValid_global "id" (pushed Id st2)).1 = Throw order_error.
Proof. repeat split; reflexivity. Qed.

Section Combine.

Import CssCreator.

Lemma invoke_other {A} (l l' : loc) (m : loc → M A) (h : Heap) :
  l ≠ l' → (invoke l m h).2 !! l' = h !! l'.
Proof.
  intros Hne. unfold invoke. destruct (h !! l) as [st|] eqn:Hl; [|done].
  destruct (m l st) as [r st']. cbn [snd]. by apply list_lookup_insert_ne.
Qed.

Lemma perform_other r l' op (h : Heap) : r ≠ l' → perform r op h !! l' = h !! l'.
Proof. intros Hne. destruct op; by apply invoke_other. Qed.

Lemma perform_all_other r l' ops : ∀ h : Heap,
  r ≠ l' → perform_all r ops h !! l' = h !! l'.
Proof.
  induction ops as [|op ops IH]; intros h Hne; [done|].
  cbn [perform_all fold_left]. fold (perform_all r ops (perform r op h)).
  by rewrite IH, perform_other.
Qed.

Lemma combine_unfold (h : Heap) (a b : loc) (sa sb : t) (comb : string) :
  h !! a = Some sa →
  h !! b = Some sb →
  cssSelectorBuilder.combine a comb b h
  = (Return (length h),
     h ++ [appended (template sa +:+ " " +:+ comb +:+ " " +:+ template sb)
             (constructor None)]).
Proof.
  intros Ha Hb. unfold cssSelectorBuilder.combine, mbind, HM_bind, new_CssCreator.
  fold (call_stringify a). fold (call_stringify b).
  rewrite (call_stringify_lookup _ _ sa) by by apply lookup_app_l_Some.
  rewrite (call_stringify_lookup _ _ sb) by by apply lookup_app_l_Some.
  by rewrite invoke_fresh.
Qed.

End Combine.

(** ** combine *)

(** C4. [combine(A, c, B)] always returns, whatever state the operands are
    in, and the builder it returns stringifies to the text of [A], a space,
    [c], a space and the text of [B]; passing that builder to [combine]
    again composes the same way. *)
Theorem combine_stringify (h : Heap) (a b : loc) (sa sb : CssCreator.t)
    (comb : string) :
  h !! a = Some sa →
  h !! b = Some sb →
  ((cssSelectorBuilder.combine a comb b ≫= call_stringify) h).1
  = Return (CssCreator.template sa +:+ " " +:+ comb +:+ " "
            +:+ CssCreator.template sb)
  ∧ ∀ (z : loc) (sz : CssCreator.t) (comb' : string),
      h !! z = Some sz →
      ((ab ← cssSelectorBuilder.combine a comb b;
        r ← cssSelectorBuilder.combine ab comb' z;
        call_stringify r) h).1
      = Return (CssCreator.template sa +:+ " " +:+ comb +:+ " "
                +:+ CssCreator.template sb +:+ " " +:+ comb' +:+ " "
                +:+ CssCreator.template sz).
Proof.
  intros Ha Hb. split.
  - unfold mbind, HM_bind. rewrite (combine_unfold _ _ _ sa sb) by done.
    rewrite (call_stringify_lookup _ _ _ (list_lookup_middle _ _ _ _ eq_refl)). done.
  - intros z sz comb' Hz. unfold mbind, HM_bind.
    rewrite (combine_unfold _ _ _ sa sb) by done.
    erewrite combine_unfold;
      [|by apply list_lookup_middle|by apply lookup_app_l_Some].
    rewrite (call_stringify_lookup _ _ _ (list_lookup_middle _ _ _ _ eq_refl)).
    cbn [fst]. f_equal. unfold appended.
    cbn [CssCreator.template CssCreator.with_template CssCreator.constructor].
    rewrite !append_nil_l. by rewrite !append_assoc.
Qed.

Lemma combine_stringify_witness :
  ((cssSelectorBuilder.combine 0 "+" 1 ≫= call_stringify)
     [after_call (Element, "div") (CssCreator.constructor None);
      after_call (Element, "p") (CssCreator.constructor None)]).1
  = Return "div + p"
  ∧ ∀ (z : loc) (sz : CssCreator.t) (comb' : string),
      [after_call (Element, "div") (CssCreator.constructor None);
       after_call (Element, "p") (CssCreator.constructor None)] !! z = Some sz →
      ((ab ← cssSelectorBuilder.combine 0 "+" 1;
        r ← cssSelectorBuilder.combine ab comb' z;
        call_stringify r)
         [after_call (Element, "div") (CssCreator.constructor None);
          after_call (Element, "p") (CssCreator.constructor None)]).1
      = Return ("div + p " +:+ comb' +:+ " " +:+ CssCreator.template sz).
Proof.
  apply (combine_stringify
           [after_call (Element, "div") (CssCreator.constructor None);
            after_call (Element, "p") (CssCreator.constructor None)]
           0 1
           (after_call (Element, "div") (CssCreator.constructor None))
           (after_call (Element, "p") (CssCreator.constructor None)) "+");
    reflexivity.
Defined.

(** C10. [combine(A, c, B)] returns a reference that is neither [A] nor [B]
    and leaves both objects as they were; whatever is then run on the
    returned builder, [A] and [B] stay unchanged and stringify as before
    the call. *)
Theorem combine_preserves_operands (h : Heap) (a b : loc) (sa sb : CssCreator.t)
    (comb : string) :
  h !! a = Some sa →
  h !! b = Some sb →
  ∃ (r : loc) (h' : Heap),
    cssSelectorBuilder.combine a comb b h = (Return r, h')
    ∧ r ≠ a ∧ r ≠ b
    ∧ ∀ ops : list operation,
        perform_all r ops h' !! a = Some sa
        ∧ perform_all r ops h' !! b = Some sb
        ∧ (call_stringify a (perform_all r ops h')).1 = (call_stringify a h).1
        ∧ (call_stringify b (perform_all r ops h')).1 = (call_stringify b h).1.
Proof.
  intros Ha Hb.
  assert (Hla : a < length h) by by eapply lookup_lt_Some.
  assert (Hlb : b < length h) by by eapply lookup_lt_Some.
  do 2 eexists. split; [by apply (combine_unfold _ _ _ sa sb)|].
  split; [lia|]. split; [lia|]. intros ops.
  assert (Ha' : perform_all (length h) ops
                  (h ++ [appended (CssCreator.template sa +:+ " " +:+ comb +:+ " "
                                   +:+ CssCreator.template sb)
                           (CssCreator.constructor None)]) !! a = Some sa).
  { rewrite perform_all_other by lia. by apply lookup_app_l_Some. }
  assert (Hb' : perform_all (length h) ops
                  (h ++ [appended (CssCreator.template sa +:+ " " +:+ comb +:+ " "
                                   +:+ CssCreator.template sb)
                           (CssCreator.constructor None)]) !! b = Some sb).
  { rewrite perform_all_other by lia. by apply lookup_app_l_Some. }
  split; [done|]. split; [done|].
  by rewrite (call_stringify_lookup _ _ sa Ha'), (call_stringify_lookup _ _ sb Hb'),
       (call_stringify_lookup _ _ sa Ha), (call_stringify_lookup _ _ sb Hb).
Qed.

Lemma combine_preserves_operands_witness :
  ∃ (r : loc) (h' : Heap),
    cssSelectorBuilder.combine 0 "+" 1
      [after_call (Element, "div") (CssCreator.constructor None);
       after_call (Element, "p") (CssCreator.constructor None)]
    = (Return r, h')
    ∧ r ≠ 0 ∧ r ≠ 1
    ∧ ∀ ops : list operation,
        perform_all r ops h' !! 0
        = Some (after_call (Element, "div") (CssCreator.constructor None))
        ∧ perform_all r ops h' !! 1
          = Some (after_call (Element, "p") (CssCreator.constructor None))
        ∧ (call_stringify 0 (perform_all r ops h')).1
          = (call_stringify 0
               [after_call (Element, "div") (CssCreator.constructor None);
                after_call (Element, "p") (CssCreator.constructor None)]).1
        ∧ (call_stringify 1 (perform_all r ops h')).1
          = (call_stringify 1
               [after_call (Element, "div") (CssCreator.constructor None);
                after_call (Element, "p") (CssCreator.constructor None)]).1.
Proof.
  apply (combine_preserves_operands
           [after_call (Element, "div") (CssCreator.constructor None);
            after_call (Element, "p") (CssCreator.constructor None)]
           0 1
           (after_call (Element, "div") (CssCreator.constructor None))
           (after_call (Element, "p") (CssCreator.constructor None)) "+");
    reflexivity.
Defined.

(** ** Rectangle *)

(** C8. For all numbers [w] and [h], [Rectangle(w, h)] is an object whose
    [width] is [w], whose [height] is [h] and whose [getArea()] returns
    [w * h]; [Rectangle(10, 20).getArea()] is [200]. The function has no
    failing path: negative, infinite and NaN arguments are stored as given. *)
Theorem Rectangle_fields_and_area (w h : number) :
  width (Rectangle w h) = w
  ∧ height (Rectangle w h) = h
  ∧ getArea (Rectangle w h) () = (w * h)%float
  ∧ getArea (Rectangle 10 20) () = 200%float
  ∧ width (Rectangle (-1) nan) = (-1)%float
  ∧ height (Rectangle neg_infinity nan) = nan.
Proof. repeat split; reflexivity. Qed.

Section JSONRoundTrip.

Import JSON.

Lemma value_ind (P : value → Prop) :
  P JNull →
  (∀ b, P (JBool b)) →
  (∀ n, P (JNumber n)) →
  (∀ x, P (JNotFinite x)) →
  (∀ s, P (JString s)) →
  (∀ items, Forall P items → P (JArray items)) →
  (∀ props, Forall (λ kv, P kv.2) props → P (JObject props)) →
  ∀ v, P v.
Proof.
  intros Hnull Hbool Hnum Hinf Hstr Harr Hobj.
  fix IH 1. intros [|b|n|x|s|items|props]; [done..| |].
  - apply Harr. induction items as [|x items IHitems]; constructor; [apply IH|done].
  - apply Hobj. induction props as [|[k x] props IHprops]; constructor; [apply IH|done].
Qed.

(** *** Numbers *)

Lemma read_digits_digits d rest :
  (∀ c r, rest = c :: r → digit_of c = None) →
  read_digits (digits d ++ rest) = (d, rest).
Proof.
  intros Hrest. induction d; cbn [digits app read_digits digit_of];
    try (rewrite IHd; reflexivity).
  destruct rest as [|c r]; [done|]. cbn [read_digits]. by rewrite (Hrest c r).
Qed.

Lemma delimited_no_digit rest :
  delimited rest → ∀ c r, rest = c :: r → digit_of c = None.
Proof. intros Hd c r ->. by destruct Hd as [-> | [-> | ->]]. Qed.

Lemma numeral_to_uint p : numeral (Pos.to_uint p).
Proof.
  pose proof (DecimalPos.Unsigned.to_of (Pos.to_uint p)) as Hnorm.
  rewrite DecimalPos.Unsigned.of_to in Hnorm. cbn [N.to_uint] in Hnorm.
  pose proof (DecimalPos.Unsigned.to_uint_nonzero p) as Hnz.
  pose proof (DecimalPos.Unsigned.to_uint_nonnil p) as Hnn.
  destruct (Pos.to_uint p) as [|d'| | | | | | | | |]; try done.
  exfalso. unfold Decimal.unorm in Hnorm. cbn [Decimal.nzhead] in Hnorm.
  pose proof (nzhead_nonzero d') as Hhd.
  destruct (Decimal.nzhead d') eqn:Hd'; congruence.
Qed.

Lemma parse_number_digits (negative : bool) d rest :
  numeral d →
  delimited rest →
  parse_number ((if negative then ["-"%char] else []) ++ digits d ++ rest)
  = Some (JNumber (Z.of_int (if negative then Decimal.Neg d else Decimal.Pos d)), rest).
Proof.
  intros Hd Hrest. unfold parse_number.
  assert (Hsign :
    (match (if negative then ["-"%char] else []) ++ digits d ++ rest with
     | ("-" :: r)%char => (true, r)
     | _ => (false, (if negative then ["-"%char] else []) ++ digits d ++ rest)
     end) = (negative, digits d ++ rest)).
  { destruct negative; [done|]. cbn [app].
    by destruct d. }
  rewrite Hsign, read_digits_digits by by apply delimited_no_digit.
  destruct d as [|d'| | | | | | | | |]; try done;
    try (destruct rest as [|c r]; [done|]; by destruct Hrest as [-> | [-> | ->]]).
  cbn in Hd. subst d'.
  destruct rest as [|c r]; [done|]; by destruct Hrest as [-> | [-> | ->]].
Qed.

Lemma serialize_number_eq n :
  ∃ (negative : bool) d,
    numeral d
    ∧ serialize_number n = (if negative then ["-"%char] else []) ++ digits d
    ∧ Z.of_int (if negative then Decimal.Neg d else Decimal.Pos d) = n.
Proof.
  unfold serialize_number. pose proof (DecimalZ.of_to n) as Hn.
  destruct n as [|p|p]; cbn [Z.to_int] in *.
  - by exists false, (Decimal.D0 Decimal.Nil).
  - exists false, (Pos.to_uint p). split; [apply numeral_to_uint|done].
  - exists true, (Pos.to_uint p). split; [apply numeral_to_uint|done].
Qed.

Lemma parse_number_serialize n rest :
  delimited rest →
  parse_number (serialize_number n ++ rest) = Some (JNumber n, rest).
Proof.
  intros Hrest. destruct (serialize_number_eq n) as (negative & d & Hd & -> & <-).
  rewrite <- app_assoc. by apply parse_number_digits.
Qed.

(** *** Strings *)

Lemma parse_escape_char c tail :
  parse_string_chars (escape_char c ++ tail)
  = prod_map (String c) id <$> parse_string_chars tail.
Proof. destruct c as [[] [] [] [] [] [] [] []]; reflexivity. Qed.

Lemma parse_string_escape s rest :
  parse_string_chars (escape s ++ quote :: rest) = Some (s, rest).
Proof.
  induction s as [|c s IH]; [done|].
  cbn [escape]. by rewrite <- app_assoc, parse_escape_char, IH.
Qed.

Lemma serialize_string_head s tail :
  serialize_string s ++ tail = quote :: escape s ++ quote :: tail.
Proof. unfold serialize_string. cbn [app]. by rewrite <- app_assoc. Qed.

(** *** Arrays and objects *)

Lemma serialize_array items :
  serialize (JArray items) = "["%char :: serialize_elements items ++ ["]"%char].
Proof. reflexivity. Qed.

Lemma serialize_object props :
  serialize (JObject props) = "{"%char :: serialize_members props ++ ["}"%char].
Proof. reflexivity. Qed.

Lemma weight_array items : weight (JArray items) = S (weight_elements items).
Proof. reflexivity. Qed.

Lemma weight_object props : weight (JObject props) = S (weight_members props).
Proof. reflexivity. Qed.

Lemma serialize_number_starts n :
  ∃ c t, serialize_number n = c :: t ∧ starts_number c = true.
Proof.
  destruct (serialize_number_eq n) as (negative & d & Hd & -> & _).
  destruct negative; [by eexists _, _|]. destruct d; try done; by eexists _, _.
Qed.

Lemma serialize_starts v : ∃ c t, serialize v = c :: t ∧ starts_value c = true.
Proof.
  destruct v as [|[]|n|x|s|items|props];
    [by eexists _, _..| | | | |]; [|by eexists _, _..].
  destruct (serialize_number_starts n) as (c & t & Hn & Hc).
  exists c, t. split; [done|]. by destruct c as [[] [] [] [] [] [] [] []].
Qed.

Lemma serialize_elements_starts x items :
  ∃ c t, serialize_elements (x :: items) = c :: t ∧ starts_value c = true.
Proof.
  destruct (serialize_starts x) as (c & t & Hx & Hc).
  destruct items as [|y items]; cbn [serialize_elements]; rewrite Hx; by eexists _, _.
Qed.

Lemma parse_value_number_start fuel c t :
  starts_number c = true → parse_value (S fuel) (c :: t) = parse_number (c :: t).
Proof. destruct c as [[] [] [] [] [] [] [] []]; (discriminate || reflexivity). Qed.

Lemma parse_value_string fuel t :
  parse_value (S fuel) (quote :: t) = prod_map JString id <$> parse_string_chars t.
Proof. reflexivity. Qed.

Lemma parse_value_array_elements fuel c t :
  starts_value c = true →
  parse_value (S fuel) ("["%char :: c :: t)
  = prod_map JArray id <$> parse_elements fuel (c :: t).
Proof. destruct c as [[] [] [] [] [] [] [] []]; (discriminate || reflexivity). Qed.

Lemma parse_value_object_members fuel t :
  parse_value (S fuel) ("{"%char :: quote :: t)
  = prod_map (λ m, JObject (props_of_members m)) id
      <$> parse_members fuel (quote :: t).
Proof. reflexivity. Qed.

Lemma parse_elements_step fuel s :
  parse_elements (S fuel) s
  = match parse_value fuel s with
    | None => None
    | Some (v, r) =>
        match skip_ws r with
        | ("," :: r')%char => prod_map (cons v) id <$> parse_elements fuel r'
        | ("]" :: r')%char => Some ([v], r')
        | _ => None
        end
    end.
Proof. reflexivity. Qed.

Lemma parse_members_step fuel t :
  parse_members (S fuel) (quote :: t)
  = match parse_string_chars t with
    | None => None
    | Some (k, r1) =>
        match skip_ws r1 with
        | (":" :: r2)%char =>
            match parse_value fuel r2 with
            | None => None
            | Some (v, r3) =>
                match skip_ws r3 with
                | ("," :: r4)%char =>
                    prod_map (cons (k, v)) id <$> parse_members fuel r4
                | ("}" :: r4)%char => Some ([(k, v)], r4)
                | _ => None
                end
            end
        | _ => None
        end
    end.
Proof. reflexivity. Qed.

Lemma parse_elements_serialize items :
  Forall (λ x, ∀ fuel rest, delimited rest → weight x ≤ fuel →
               parse_value fuel (serialize x ++ rest) = Some (x, rest)) items →
  items ≠ [] →
  ∀ fuel rest,
    weight_elements items ≤ fuel →
    parse_elements fuel (serialize_elements items ++ "]"%char :: rest)
    = Some (items, rest).
Proof.
  induction 1 as [|x items Hx _ IH]; [done|]. intros _ fuel rest Hfuel.
  cbn [weight_elements] in Hfuel. destruct fuel as [|fuel]; [lia|].
  rewrite parse_elements_step. destruct items as [|y items].
  - cbn [serialize_elements]. rewrite Hx by (cbn; auto with lia). reflexivity.
  - change (serialize_elements (x :: y :: items))
      with (serialize x ++ ","%char :: serialize_elements (y :: items)).
    rewrite <- app_assoc. cbn [app]. rewrite Hx by (cbn; auto with lia).
    cbn [skip_ws]. rewrite IH by (done || lia). reflexivity.
Qed.

Lemma parse_members_serialize props :
  Forall (λ kv, ∀ fuel rest, delimited rest → weight kv.2 ≤ fuel →
                parse_value fuel (serialize kv.2 ++ rest) = Some (kv.2, rest)) props →
  props ≠ [] →
  ∀ fuel rest,
    weight_members props ≤ fuel →
    parse_members fuel (serialize_members props ++ "}"%char :: rest)
    = Some (props, rest).
Proof.
  induction 1 as [|[k x] props Hx _ IH]; [done|]. intros _ fuel rest Hfuel.
  cbn [weight_members snd] in Hfuel. cbn [snd] in Hx.
  destruct fuel as [|fuel]; [lia|]. destruct props as [|kv props].
  - cbn [serialize_members]. rewrite <- app_assoc, serialize_string_head.
    rewrite parse_members_step, parse_string_escape. cbn [skip_ws app].
    rewrite Hx by (cbn; auto with lia). reflexivity.
  - change (serialize_members ((k, x) :: kv :: props))
      with (serialize_string k ++ ":"%char :: serialize x
            ++ ","%char :: serialize_members (kv :: props)).
    rewrite <- app_assoc, serialize_string_head.
    rewrite parse_members_step, parse_string_escape. cbn [skip_ws app].
    rewrite <- app_assoc. cbn [app]. rewrite Hx by (cbn; auto with lia).
    cbn [skip_ws]. rewrite IH by (done || lia). reflexivity.
Qed.

Lemma serialize_members_starts kv props :
  ∃ t, serialize_members (kv :: props) = quote :: t.
Proof.
  destruct kv as [k x].
  destruct props as [|kv' props]; cbn [serialize_members];
    unfold serialize_string; cbn [app]; by eexists.
Qed.

(** *** Repeated keys *)

Lemma set_property_fresh k v props :
  k ∉ props.*1 → set_property k v props = props ++ [(k, v)].
Proof.
  induction props as [|[k' v'] props IH]; intros Hk; [done|].
  cbn [set_property]. rewrite fmap_cons, not_elem_of_cons in Hk.
  destruct Hk as [Hne Hk]. cbn [fst] in Hne.
  rewrite decide_False by done. by rewrite IH.
Qed.

Lemma fold_set_property members : ∀ props,
  NoDup (props.*1 ++ members.*1) →
  fold_left (λ props kv, set_property kv.1 kv.2 props) members props
  = props ++ members.
Proof.
  induction members as [|[k v] members IH]; intros props Hnd.
  - by rewrite app_nil_r.
  - cbn [fold_left fst snd]. rewrite fmap_cons in Hnd. cbn [fst] in Hnd.
    rewrite set_property_fresh.
    + rewrite IH; [by rewrite <- app_assoc|].
      rewrite fmap_app, <- app_assoc. done.
    + apply NoDup_app in Hnd as (_ & Hdisj & _). intros Hin.
      apply (Hdisj k Hin). apply list_elem_of_here.
Qed.

Lemma props_of_members_NoDup members :
  NoDup members.*1 → props_of_members members = members.
Proof. intros Hnd. unfold props_of_members. by rewrite fold_set_property. Qed.

(** *** Values *)

Lemma parse_value_serialize v : plain v →
  ∀ fuel rest,
    delimited rest →
    weight v ≤ fuel →
    parse_value fuel (serialize v ++ rest) = Some (v, rest).
Proof.
  induction v as [|b|n|x|s|items IH|props IH] using value_ind;
    intros Hplain fuel rest Hrest Hfuel;
    (destruct fuel as [|fuel]; [cbn in Hfuel; lia|]).
  - reflexivity.
  - by destruct b.
  - destruct (serialize_number_starts n) as (c & t & Hn & Hc).
    pose proof (parse_number_serialize n rest Hrest) as Hparse.
    cbn [serialize]. rewrite Hn in *. cbn [app] in *.
    by rewrite parse_value_number_start.
  - inversion Hplain.
  - cbn [serialize]. rewrite serialize_string_head, parse_value_string.
    by rewrite parse_string_escape.
  - rewrite serialize_array. rewrite weight_array in Hfuel.
    inversion Hplain as [| | | |? Hitems|]; subst.
    destruct items as [|x items]; [reflexivity|].
    destruct (serialize_elements_starts x items) as (c & t & Hs & Hc).
    cbn [app]. rewrite <- app_assoc. cbn [app].
    pose proof (parse_elements_serialize (x :: items)) as Hparse.
    rewrite Hs in *. cbn [app] in *. rewrite parse_value_array_elements by done.
    rewrite Hparse; [done| |done|lia].
    rewrite Forall_forall in IH, Hitems. apply Forall_forall.
    intros y Hy fuel' rest' Hrest' Hfuel'. apply IH; [done|by apply Hitems|done..].
  - rewrite serialize_object. rewrite weight_object in Hfuel.
    inversion Hplain as [| | | | |? Hnd Hprops]; subst.
    destruct props as [|kv props]; [reflexivity|].
    destruct (serialize_members_starts kv props) as (t & Hs).
    cbn [app]. rewrite <- app_assoc. cbn [app].
    pose proof (parse_members_serialize (kv :: props)) as Hparse.
    rewrite Hs in *. cbn [app] in *. rewrite parse_value_object_members.
    rewrite Hparse; [|  |done|lia].
    + cbn [fmap option_fmap option_map prod_map fst snd id].
      by rewrite props_of_members_NoDup.
    + rewrite Forall_forall in IH, Hprops. apply Forall_forall.
      intros y Hy fuel' rest' Hrest' Hfuel'.
      apply IH; [done|by apply (Hprops y)|done..].
Qed.

(** *** Whole texts *)

Lemma length_serialize_number n : 1 ≤ length (serialize_number n).
Proof.
  destruct (serialize_number_starts n) as (c & t & -> & _). cbn. lia.
Qed.

Lemma weight_le_length v : weight v ≤ length (serialize v).
Proof.
  induction v as [|b|n|x|s|items IH|props IH] using value_ind.
  - cbn. lia.
  - destruct b; cbn; lia.
  - apply length_serialize_number.
  - cbn. lia.
  - cbn. lia.
  - rewrite weight_array, serialize_array. cbn [length]. rewrite length_app.
    cbn [length].
    assert (weight_elements items ≤ length (serialize_elements items) + 1); [|lia].
    induction IH as [|x items Hx _ IHitems]; [cbn; lia|].
    destruct items as [|y items].
    + cbn [weight_elements serialize_elements]. lia.
    + change (serialize_elements (x :: y :: items))
        with (serialize x ++ ","%char :: serialize_elements (y :: items)).
      cbn [weight_elements] in *. rewrite length_app. cbn [length]. lia.
  - rewrite weight_object, serialize_object. cbn [length]. rewrite length_app.
    cbn [length].
    assert (weight_members props ≤ length (serialize_members props) + 1); [|lia].
    induction IH as [|[k x] props Hx _ IHprops]; [cbn; lia|].
    cbn [snd] in Hx. destruct props as [|kv props].
    + cbn [weight_members serialize_members snd]. rewrite length_app. cbn [length]. lia.
    + change (serialize_members ((k, x) :: kv :: props))
        with (serialize_string k ++ ":"%char :: serialize x
              ++ ","%char :: serialize_members (kv :: props)).
      cbn [weight_members snd] in *. rewrite length_app. cbn [length].
      rewrite length_app. cbn [length]. lia.
Qed.

(** [JSON.parse(JSON.stringify(v))] gives [v] back. *)
Lemma parse_stringify v : plain v → parse (stringify v) = Return v.
Proof.
  intros Hplain. unfold parse, stringify.
  rewrite list_ascii_of_string_of_list_ascii.
  rewrite <- (app_nil_r (serialize v)) at 2.
  rewrite parse_value_serialize; [done|done|done|].
  pose proof (weight_le_length v). lia.
Qed.

End JSONRoundTrip.

Section Restored.

Import JSON.








End Restored.

(** ** getJSON and fromJSON *)




(** Reading the properties of the object of the source's example: the own
    field first, then the method of the prototype. *)
Example fromJSON_example_reads :
  match fromJSON [("getCircumference", tt)]
          (String "{" (String JSON.quote ("radius" +:+ String JSON.quote ":10}")))
  with
  | Return (WithPrototype proto (JSON.JObject own)) =>
      get_property proto own "radius" = Some (inl (JSON.JNumber 10))
      ∧ get_property proto own "getCircumference" = Some (inr tt)
      ∧ get_property proto own "area" = None
  | _ => False
  end.
Proof. cbn. repeat split; reflexivity. Qed.

Example getJSON_array :
  getJSON (JSON.JArray [JSON.JNumber 1; JSON.JNumber 2; JSON.JNumber 3]) = "[1,2,3]".
Proof. reflexivity. Qed.


(** ** The examples of the source's comments *)

Example Rectangle_example :
  width (Rectangle 10 20) = 10%float
  ∧ height (Rectangle 10 20) = 20%float
  ∧ getArea (Rectangle 10 20) () = 200%float.
Proof. repeat split; reflexivity. Qed.

Example builder_example_1 :
  ((chain (Id, "main") [(Class, "container"); (Class, "editable")]
      ≫= call_stringify) []).1
  = Return "#main.container.editable".
Proof. reflexivity. Qed.

Example builder_example_2 :
  ((chain (Element, "a")
      [(Attr, "href$=" +:+ String JSON.quote (".png" +:+ String JSON.quote EmptyString));
       (PseudoClass, "focus")]
      ≫= call_stringify) []).1
  = Return ("a[href$=" +:+ String JSON.quote (".png" +:+ String JSON.quote "]:focus")).
Proof. reflexivity. Qed.

Example builder_example_3 :
  ((x ← chain (Element, "div")
          [(Id, "main"); (Class, "container"); (Class, "draggable")];
    y ← chain (Element, "table") [(Id, "data")];
    z ← chain (Element, "tr") [(PseudoClass, "nth-of-type(even)")];
    w ← chain (Element, "td") [(PseudoClass, "nth-of-type(even)")];
    zw ← cssSelectorBuilder.combine z " " w;
    yzw ← cssSelectorBuilder.combine y "~" zw;
    r ← cssSelectorBuilder.combine x "+" yzw;
    call_stringify r) []).1
  = Return "div#main.container.draggable + table#data ~ tr:nth-of-type(even)   td:nth-of-type(even)".
Proof. reflexivity. Qed.

(** * Further properties *)

Section ChainOutcome.

Import CssCreator.

Lemma accepted_unique cs :
  accepted cs ↔
  nondecreasing cs ∧ ∀ k, unique_kind k = true → occurrences k cs ≤ 1.
Proof.
  unfold accepted. split.
  - intros (Hs & He & Hi & Hp). split; [done|]. by intros [] Hk.
  - intros (Hs & Hu). repeat split; [done|by apply Hu..].
Qed.

Lemma calls_app pre : ∀ post (l : loc) (h : Heap),
  calls l (pre ++ post) h
  = match calls l pre h with
    | (Return l', h') => calls l' post h'
    | (Throw e, h') => (Throw e, h')
    end.
Proof.
  induction pre as [|c pre IH]; intros post l h; [done|].
  cbn [app calls]. unfold mbind, HM_bind.
  destruct (invoke l (method c) h) as [[l'|e] h']; [apply IH|done].
Qed.

Lemma calls_outcome cs : ∀ (l : loc) (h : Heap) st,
  h !! l = Some st →
  (calls l cs h).1 = Return l
  ∨ (calls l cs h).1 = Throw order_error
  ∨ (calls l cs h).1 = Throw duplicate_error.
Proof.
  induction cs as [|c cs IH]; intros l h st Hl; [by left|].
  rewrite (calls_cons _ _ _ _ st Hl), method_unfold.
  assert (Hlen : l < length h) by by eapply lookup_lt_Some.
  destruct (order_ok c.1 st); [|by right; left].
  destruct (unique_kind c.1 && bool_decide (1 ≤ counter c.1 st)); [by right; right|].
  eapply IH. by apply list_lookup_insert_eq.
Qed.

End ChainOutcome.

(** X1. A chain started at the facade returns exactly when it is accepted:
    its ranks never go down and element, id and pseudoElement occur at most
    once. *)
Theorem chain_returns_iff (c0 : fragment) (cs : list fragment) (h : Heap) :
  (chain c0 cs h).1 = Return (length h) ↔ accepted (c0 :: cs).
Proof.
  rewrite accepted_unique. split.
  - destruct (chain c0 cs h) as [r h'] eqn:Hrun. cbn [fst]. intros ->.
    by apply chain_inv in Hrun as (_ & _ & Hs & Hu).
  - intros [Hs Hu]. by rewrite chain_returns.
Qed.

(** X2. Whatever the fragments, a chain started at the facade either
    returns the reference the facade created or throws one of the two
    errors of the class; nothing else comes out of it. *)
Theorem chain_outcome (c0 : fragment) (cs : list fragment) (h : Heap) :
  (chain c0 cs h).1 = Return (length h)
  ∨ (chain c0 cs h).1
    = Throw (Error "Selector parts should be arranged in the following order: element, id, class, attribute, pseudo-class, pseudo-element")
  ∨ (chain c0 cs h).1
    = Throw (Error "Element, id and pseudo-element should not occur more then one time inside the selector").
Proof.
  rewrite chain_unfold.
  apply (calls_outcome cs _ _ (after_call c0 (CssCreator.constructor None))).
  by apply list_lookup_middle.
Qed.

(** X3. The first call that breaks a rule ends the chain: when the calls
    before [c] are accepted and [c] is of lower rank than the call before
    it, the chain throws the order error; when [c] is not of lower rank but
    repeats element, id or pseudoElement, it throws the duplicate error. In
    both cases the calls written after [c] are not run: the text is that of
    the calls before [c]. *)
Theorem chain_first_failure (c0 : fragment) (pre : list fragment) (c : fragment)
    (post : list fragment) (h : Heap) :
  accepted (c0 :: pre) →
  (rank c.1 < rank (default c0 (last pre)).1)%Z
  ∨ (unique_kind c.1 = true ∧ 0 < occurrences c.1 (c0 :: pre)) →
  ∃ st,
    chain c0 (pre ++ c :: post) h
    = (Throw (if decide (rank c.1 < rank (default c0 (last pre)).1)%Z
              then order_error else duplicate_error),
       h ++ [st])
    ∧ CssCreator.template st = concat_strings (render <$> c0 :: pre).
Proof.
  intros Hacc Hbreak. apply accepted_unique in Hacc as [Hs Hu].
  set (st := after_calls (c0 :: pre) (CssCreator.constructor None)).
  assert (Hseq : CssCreator.sequence st = kinds_order)
    by by (unfold st; rewrite after_calls_sequence).
  assert (Hlast : last (CssCreator.sort st) = Some (tag (default c0 (last pre)).1)).
  { unfold st. rewrite after_calls_sort.
    change (CssCreator.sort (CssCreator.constructor None)) with (@nil string).
    by rewrite app_nil_l, fmap_last, last_cons_default. }
  assert (Htpl : CssCreator.template st = concat_strings (render <$> c0 :: pre)).
  { unfold st. by rewrite after_calls_template. }
  assert (Hcnt : unique_kind c.1 = true → counter c.1 st = occurrences c.1 (c0 :: pre)).
  { intros Hk. unfold st. rewrite after_calls_counter by done. by destruct (c.1). }
  unfold chain, mbind, HM_bind. rewrite facade_returns, calls_app.
  rewrite (calls_returns pre _ _ (after_call c0 (CssCreator.constructor None))); cycle 1.
  { by apply list_lookup_middle. }
  { by rewrite after_call_sequence. }
  { unfold nondecreasing, ranks in Hs. cbn in Hs. by inversion Hs. }
  { intros c' Hc'. destruct pre as [|c2 pre]; [done|]. injection Hc' as ->.
    rewrite (order_ok_last c0.1).
    - apply bool_decide_eq_true. unfold nondecreasing, ranks in Hs.
      cbn in Hs. inversion Hs as [|? ? _ Hhd]. by inversion Hhd.
    - by rewrite after_call_sequence.
    - by rewrite after_call_sort, last_snoc. }
  { intros k Hk. specialize (Hu _ Hk). rewrite occurrences_cons in Hu.
    rewrite after_call_counter by done.
    replace (counter k (CssCreator.constructor None)) with 0 by by destruct k. lia. }
  rewrite insert_app_r_alt by lia. rewrite Nat.sub_diag. cbn [insert list_insert].
  change (after_calls pre (after_call c0 (CssCreator.constructor None))) with st.
  rewrite (calls_cons _ _ _ _ st) by by apply list_lookup_middle.
  rewrite method_unfold, (order_ok_last (default c0 (last pre)).1) by done.
  case_decide as Hlt.
  - rewrite bool_decide_eq_false_2 by lia.
    rewrite insert_app_r_alt by lia. rewrite Nat.sub_diag.
    eexists. split; [reflexivity|]. done.
  - rewrite bool_decide_eq_true_2 by lia.
    destruct Hbreak as [?|[Hk Hpos]]; [lia|].
    rewrite Hk, Hcnt by done. rewrite bool_decide_eq_true_2 by lia. cbn [andb].
    rewrite insert_app_r_alt by lia. rewrite Nat.sub_diag.
    eexists. split; [reflexivity|]. by destruct c as [[] v].
Qed.

Lemma chain_first_failure_witness :
  ∃ st,
    chain (Element, "div") ([(Class, "a")] ++ (Id, "x") :: [(Class, "b")]) []
    = (Throw (if decide (rank (Id, "x").1
                         < rank (default (Element, "div") (last [(Class, "a")])).1)%Z
              then order_error else duplicate_error),
       [] ++ [st])
    ∧ CssCreator.template st
      = concat_strings (render <$> (Element, "div") :: [(Class, "a")]).
Proof.
  apply (chain_first_failure (Element, "div") [(Class, "a")] (Id, "x")
           [(Class, "b")] []).
  - unfold accepted, nondecreasing. vm_compute.
    repeat split; try lia; repeat constructor; discriminate.
  - left. vm_compute. reflexivity.
Defined.

Section Instances.

Import CssCreator.

Lemma calls_relocate cs : ∀ (h : Heap) st,
  calls (length h) cs (h ++ [st])
  = (relocate (length h) (calls 0 cs [st]).1, h ++ (calls 0 cs [st]).2).
Proof.
  induction cs as [|c cs IH]; intros h st.
  - cbn. by rewrite Nat.add_0_r.
  - rewrite (calls_cons _ _ _ _ st) by by apply list_lookup_middle.
    rewrite (calls_cons 0 _ _ [st] st) by done.
    rewrite !method_unfold.
    destruct (order_ok c.1 st);
      [destruct (unique_kind c.1 && bool_decide (1 ≤ counter c.1 st))|];
      rewrite insert_app_r_alt by lia; rewrite Nat.sub_diag;
      cbn [insert list_insert]; [done| |done].
    apply IH.
Qed.

End Instances.

(** X4. Builders share nothing: a chain started at the facade, whether it
    returns or throws, leaves every object already in the store as it was
    and adds exactly one object after them; what it returns or throws, and
    the object it adds, are those of the same chain run on an empty store. *)
Theorem chain_is_independent (c0 : fragment) (cs : list fragment) (h : Heap) :
  chain c0 cs h
  = (relocate (length h) (chain c0 cs []).1, h ++ (chain c0 cs []).2)
  ∧ length (chain c0 cs []).2 = 1.
Proof.
  rewrite !chain_unfold. cbn [length app].
  rewrite (calls_relocate cs h). split; [done|].
  generalize (after_call c0 (CssCreator.constructor None)).
  induction cs as [|c cs IH]; intros st; [done|].
  rewrite (calls_cons 0 _ _ [st] st) by done. rewrite method_unfold.
  destruct (order_ok c.1 st); [|done].
  destruct (unique_kind c.1 && bool_decide (1 ≤ counter c.1 st)); [done|].
  apply IH.
Qed.

Section History.

Import CssCreator.

Lemma extends_refl st : extends st st.
Proof.
  unfold extends. split_and!; try done.
  exists EmptyString. by rewrite append_nil_r.
Qed.

Lemma extends_trans st1 st2 st3 : extends st1 st2 → extends st2 st3 → extends st1 st3.
Proof.
  intros ([u1 Hu1] & Hs1 & ? & ? & ? & Hq1 & Hv1) ([u2 Hu2] & Hs2 & ? & ? & ? & Hq2 & Hv2).
  unfold extends. split_and!; try lia; try congruence.
  - exists (u1 +:+ u2). by rewrite Hu2, Hu1, append_assoc.
  - by etrans.
Qed.

Lemma pushed_extends k st : extends st (pushed k st).
Proof.
  unfold extends, pushed. cbn. split_and!; try done.
  - exists EmptyString. by rewrite append_nil_r.
  - by apply prefix_app_r.
Qed.

Lemma counted_extends k st : extends st (counted k st).
Proof.
  pose proof (extends_refl st) as (? & ? & ? & ? & ? & ? & ?).
  unfold extends. destruct k; cbn; split_and!; try done; lia.
Qed.

Lemma appended_extends u st : extends st (appended u st).
Proof.
  pose proof (extends_refl st) as (? & ? & ? & ? & ? & ? & ?).
  unfold extends, appended. cbn. split_and!; try done. by exists u.
Qed.

Lemma method_extends c this st : extends st (method c this st).2.
Proof.
  rewrite method_unfold.
  destruct (order_ok c.1 st);
    [destruct (unique_kind c.1 && bool_decide (1 ≤ counter c.1 st))|]; cbn [snd].
  - eapply extends_trans; [apply pushed_extends|apply counted_extends].
  - eapply extends_trans; [apply pushed_extends|].
    eapply extends_trans; [apply counted_extends|apply appended_extends].
  - apply pushed_extends.
Qed.

Lemma combine_method_unfold this s1 cb s2 st :
  CssCreator.combine this s1 cb s2 st
  = (Return this, appended (s1 +:+ " " +:+ cb +:+ " " +:+ s2) st).
Proof. reflexivity. Qed.

Lemma perform_extends r op (h : Heap) st :
  h !! r = Some st →
  ∃ st', perform r op h !! r = Some st' ∧ extends st st'.
Proof.
  intros Hr. assert (Hlen : r < length h) by by eapply lookup_lt_Some.
  destruct op as [c|s1 cb s2|]; unfold perform;
    rewrite (invoke_lookup _ _ _ st Hr); cbn [snd];
    (eexists; split; [by apply list_lookup_insert_eq|]).
  - apply method_extends.
  - apply appended_extends.
  - apply extends_refl.
Qed.

Lemma perform_all_extends r ops : ∀ (h : Heap) st,
  h !! r = Some st →
  ∃ st', perform_all r ops h !! r = Some st' ∧ extends st st'.
Proof.
  induction ops as [|op ops IH]; intros h st Hr.
  - exists st. split; [done|apply extends_refl].
  - destruct (perform_extends r op h st Hr) as (st1 & Hr1 & Hext1).
    destruct (IH _ _ Hr1) as (st2 & Hr2 & Hext2).
    exists st2. split; [done|]. by eapply extends_trans.
Qed.

Lemma extends_counter k st st' : extends st st' → counter k st ≤ counter k st'.
Proof. intros (_ & _ & ? & ? & ? & _). by destruct k; cbn. Qed.

End History.

(** X5. Nothing a caller runs on a builder erases what it holds: after any
    fragment calls (returning or throwing), [combine] calls and [stringify]
    calls, the text and the recorded kinds still begin with what they were,
    and no counter has gone down. *)
Theorem history_is_kept (r : loc) (ops : list operation) (h : Heap)
    (st : CssCreator.t) :
  h !! r = Some st →
  ∃ st', perform_all r ops h !! r = Some st'
    ∧ (∃ u, CssCreator.template st' = CssCreator.template st +:+ u)
    ∧ CssCreator.sort st `prefix_of` CssCreator.sort st'
    ∧ CssCreator.counterE st ≤ CssCreator.counterE st'
    ∧ CssCreator.counterId st ≤ CssCreator.counterId st'
    ∧ CssCreator.counterPe st ≤ CssCreator.counterPe st'.
Proof.
  intros Hr. destruct (perform_all_extends r ops h st Hr) as (st' & Hr' & Hext).
  exists st'. split; [done|].
  destruct Hext as (? & ? & ? & ? & ? & _). by split_and!.
Qed.

Lemma history_is_kept_witness :
  ∃ st',
    perform_all 0 [OpFragment (Element, "b"); OpCombine "x" "+" "y"; OpStringify]
      [after_call (Element, "a") (CssCreator.constructor None)] !! 0 = Some st'
    ∧ (∃ u, CssCreator.template st'
            = CssCreator.template
                (after_call (Element, "a") (CssCreator.constructor None)) +:+ u)
    ∧ CssCreator.sort (after_call (Element, "a") (CssCreator.constructor None))
      `prefix_of` CssCreator.sort st'
    ∧ CssCreator.counterE (after_call (Element, "a") (CssCreator.constructor None))
      ≤ CssCreator.counterE st'
    ∧ CssCreator.counterId (after_call (Element, "a") (CssCreator.constructor None))
      ≤ CssCreator.counterId st'
    ∧ CssCreator.counterPe (after_call (Element, "a") (CssCreator.constructor None))
      ≤ CssCreator.counterPe st'.
Proof.
  apply (history_is_kept 0
           [OpFragment (Element, "b"); OpCombine "x" "+" "y"; OpStringify]
           [after_call (Element, "a") (CssCreator.constructor None)]
           (after_call (Element, "a") (CssCreator.constructor None))).
  reflexivity.
Defined.

(** X6. Over the whole life of an instance element, id and pseudoElement
    each return at most once: once a call of such a kind has returned, no
    later call of that kind on the same instance returns, whatever calls,
    returning or throwing, are made in between. *)
Theorem unique_kind_returns_once (h : Heap) (r : loc) (k : kind) (v0 : string) :
  unique_kind k = true →
  (invoke r (method (k, v0)) h).1 = Return r →
  ∀ (ops : list operation) (v : string),
    returns (invoke r (method (k, v))
               (perform_all r ops (invoke r (method (k, v0)) h).2)).1 = false.
Proof.
  intros Hk Hret ops v.
  destruct (h !! r) as [st|] eqn:Hr; [|by unfold invoke in Hret; rewrite Hr in Hret].
  pose proof (invoke_method_lookup h r st (k, v0) Hr) as Hr1.
  rewrite (invoke_lookup _ _ _ st Hr) in Hret. cbn [fst] in Hret.
  assert (Hc1 : 1 ≤ counter k (method (k, v0) r st).2).
  { rewrite method_unfold in Hret |- *. cbn [fst] in *.
    destruct (order_ok k st); [|done]. rewrite Hk in *. cbn [andb] in *.
    case_bool_decide; [done|]. cbn [snd]. destruct k; try done; cbn; lia. }
  destruct (perform_all_extends r ops _ _ Hr1) as (st2 & Hr2 & Hext).
  apply (extends_counter k) in Hext.
  rewrite (invoke_lookup _ _ _ st2 Hr2). cbn [fst].
  rewrite method_unfold. cbn [fst]. destruct (order_ok k st2); [|done].
  rewrite Hk. cbn [andb]. rewrite bool_decide_eq_true_2 by lia. done.
Qed.

Lemma unique_kind_returns_once_witness :
  returns (invoke 0 (method (Id, "other"))
             (perform_all 0 [OpFragment (Class, "a"); OpFragment (Element, "b")]
                (invoke 0 (method (Id, "main")) [CssCreator.constructor None]).2)).1
  = false.
Proof.
  apply (unique_kind_returns_once [CssCreator.constructor None] 0 Id "main");
    reflexivity.
Defined.

(** X7. The method [combine] only appends its text: it always returns
    [this], and a fragment call made after it is judged exactly as if
    [combine] had not been called, with the same completion, the same
    recorded kinds and the same counters. *)
Theorem combine_is_invisible_to_validation (this : loc) (s1 cb s2 : string)
    (c : fragment) (st : CssCreator.t) :
  (CssCreator.combine this s1 cb s2 st).1 = Return this
  ∧ CssCreator.template (CssCreator.combine this s1 cb s2 st).2
    = CssCreator.template st +:+ s1 +:+ " " +:+ cb +:+ " " +:+ s2
  ∧ (method c this (CssCreator.combine this s1 cb s2 st).2).1 = (method c this st).1
  ∧ CssCreator.sort (method c this (CssCreator.combine this s1 cb s2 st).2).2
    = CssCreator.sort (method c this st).2
  ∧ ∀ k, counter k (method c this (CssCreator.combine this s1 cb s2 st).2).2
         = counter k (method c this st).2.
Proof.
  rewrite combine_method_unfold. cbn [fst snd]. split; [done|]. split; [done|].
  rewrite !method_unfold.
  change (order_ok c.1 (appended ?u st)) with (order_ok c.1 st).
  change (counter c.1 (appended ?u st)) with (counter c.1 st).
  destruct (order_ok c.1 st);
    [destruct (unique_kind c.1 && bool_decide (1 ≤ counter c.1 st))|];
    (split; [done|]); (split; [by destruct c as [[] v]|]);
    intros k; by destruct c as [[] v], k.
Qed.

Section ReachableStates.

Import CssCreator.

Lemma count_tag_snoc s x l :
  count_tag s (l ++ [x]) = count_tag s l + (if decide (x = s) then 1 else 0).
Proof.
  unfold count_tag. rewrite filter_app, length_app. f_equal.
  rewrite filter_cons, filter_nil. by case_decide.
Qed.

Lemma tag_in_order k : tag k ∈ kinds_order.
Proof. destruct k; vm_compute; repeat ((by left) || right). Qed.

Lemma indexOf_in_order p : p ∈ kinds_order → (0 ≤ indexOf p kinds_order < 6)%Z.
Proof.
  intros Hp. repeat (apply elem_of_cons in Hp as [->|Hp]; [by vm_compute|]).
  by apply elem_of_nil in Hp.
Qed.

(** What every reachable state satisfies. *)
Lemma reachable_invariant st :
  reachable st →
  sequence st = kinds_order
  ∧ Forall (λ p, p ∈ kinds_order) (sort st)
  ∧ counterE st ≤ count_tag "element" (sort st)
  ∧ counterId st ≤ count_tag "id" (sort st)
  ∧ counterPe st ≤ count_tag "pseudoElement" (sort st).
Proof.
  induction 1 as [v|st c this _ (Hseq & Hsort & He & Hi & Hp)
                 |st this s1 cb s2 _ IH].
  - cbn. split_and!; (done || lia || constructor).
  - assert (Hin : Forall (λ p, p ∈ kinds_order) (sort st ++ [tag c.1])).
    { apply Forall_app. split; [done|].
      constructor; [apply tag_in_order|constructor]. }
    rewrite method_unfold.
    destruct (order_ok c.1 st);
      [destruct (unique_kind c.1 && bool_decide (1 ≤ counter c.1 st))|];
      cbn [snd]; destruct c as [[] v]; unfold appended, counted, pushed in *;
      cbn [fst tag template sequence sort counterE counterId counterPe
           with_template with_sort with_counterE with_counterId with_counterPe] in *;
      rewrite !count_tag_snoc; repeat case_decide; try discriminate;
      split_and!; (done || lia).
  - rewrite combine_method_unfold. by cbn [snd].
Qed.

End ReachableStates.

(** X8. In every state an instance can reach, [sequence] is the order the
    constructor set, every entry of [sort] is one of its six tags, so that
    [indexOf] in [checkValid] never answers -1, and each counter is at most
    the number of times its tag was pushed. *)
Theorem reachable_state_is_well_formed (st : CssCreator.t) :
  reachable st →
  CssCreator.sequence st
  = ["element"; "id"; "class"; "attr"; "pseudoClass"; "pseudoElement"]
  ∧ Forall (λ p, (0 ≤ indexOf p (CssCreator.sequence st) < 6)%Z) (CssCreator.sort st)
  ∧ CssCreator.counterE st ≤ count_tag "element" (CssCreator.sort st)
  ∧ CssCreator.counterId st ≤ count_tag "id" (CssCreator.sort st)
  ∧ CssCreator.counterPe st ≤ count_tag "pseudoElement" (CssCreator.sort st).
Proof.
  intros Hreach. apply reachable_invariant in Hreach as (Hseq & Hsort & He & Hi & Hp).
  split_and!; try done. rewrite Hseq.
  eapply Forall_impl; [exact Hsort|]. intros p Hin. by apply indexOf_in_order.
Qed.

Lemma reachable_state_is_well_formed_witness :
  CssCreator.sequence (method (Class, "a") 0 (CssCreator.constructor None)).2
  = ["element"; "id"; "class"; "attr"; "pseudoClass"; "pseudoElement"]
  ∧ Forall (λ p, (0 ≤ indexOf p (CssCreator.sequence
                                   (method (Class, "a") 0 (CssCreator.constructor None)).2)
                  < 6)%Z)
      (CssCreator.sort (method (Class, "a") 0 (CssCreator.constructor None)).2)
  ∧ CssCreator.counterE (method (Class, "a") 0 (CssCreator.constructor None)).2
    ≤ count_tag "element"
        (CssCreator.sort (method (Class, "a") 0 (CssCreator.constructor None)).2)
  ∧ CssCreator.counterId (method (Class, "a") 0 (CssCreator.constructor None)).2
    ≤ count_tag "id"
        (CssCreator.sort (method (Class, "a") 0 (CssCreator.constructor None)).2)
  ∧ CssCreator.counterPe (method (Class, "a") 0 (CssCreator.constructor None)).2
    ≤ count_tag "pseudoElement"
        (CssCreator.sort (method (Class, "a") 0 (CssCreator.constructor None)).2).
Proof.
  apply (reachable_state_is_well_formed
           (method (Class, "a") 0 (CssCreator.constructor None)).2).
  exact (reach_fragment _ (Class, "a") 0 (reach_new None)).
Defined.

(** X9. After a chain that returned, each counter is the number of calls of
    its kind and is at most 1, and [sort] has one entry per call. *)
Theorem returned_chain_counters (h h' : Heap) (c0 : fragment) (cs : list fragment)
    (l : loc) :
  chain c0 cs h = (Return l, h') →
  ∃ st, h' !! l = Some st
    ∧ CssCreator.counterE st = occurrences Element (c0 :: cs)
    ∧ CssCreator.counterId st = occurrences Id (c0 :: cs)
    ∧ CssCreator.counterPe st = occurrences PseudoElement (c0 :: cs)
    ∧ CssCreator.counterE st ≤ 1
    ∧ CssCreator.counterId st ≤ 1
    ∧ CssCreator.counterPe st ≤ 1
    ∧ length (CssCreator.sort st) = S (length cs).
Proof.
  intros Hrun. apply chain_inv in Hrun as (-> & -> & _ & Hu).
  exists (after_calls (c0 :: cs) (CssCreator.constructor None)).
  split; [by apply list_lookup_middle|].
  pose proof (after_calls_counter (c0 :: cs) Element (CssCreator.constructor None) eq_refl) as He.
  pose proof (after_calls_counter (c0 :: cs) Id (CssCreator.constructor None) eq_refl) as Hi.
  pose proof (after_calls_counter (c0 :: cs) PseudoElement (CssCreator.constructor None) eq_refl) as Hp.
  cbn [counter] in He, Hi, Hp.
  change (CssCreator.counterE (CssCreator.constructor None)) with 0 in He.
  change (CssCreator.counterId (CssCreator.constructor None)) with 0 in Hi.
  change (CssCreator.counterPe (CssCreator.constructor None)) with 0 in Hp.
  pose proof (Hu Element eq_refl). pose proof (Hu Id eq_refl).
  pose proof (Hu PseudoElement eq_refl).
  split_and!; try lia.
  rewrite after_calls_sort, length_app, length_fmap. cbn. lia.
Qed.

Lemma returned_chain_counters_witness :
  ∃ st,
    [after_calls [(Element, "div"); (Id, "main"); (Class, "a")]
       (CssCreator.constructor None)] !! 0 = Some st
    ∧ CssCreator.counterE st
      = occurrences Element [(Element, "div"); (Id, "main"); (Class, "a")]
    ∧ CssCreator.counterId st
      = occurrences Id [(Element, "div"); (Id, "main"); (Class, "a")]
    ∧ CssCreator.counterPe st
      = occurrences PseudoElement [(Element, "div"); (Id, "main"); (Class, "a")]
    ∧ CssCreator.counterE st ≤ 1
    ∧ CssCreator.counterId st ≤ 1
    ∧ CssCreator.counterPe st ≤ 1
    ∧ length (CssCreator.sort st) = S (length [(Id, "main"); (Class, "a")]).
Proof.
  apply (returned_chain_counters [] _ (Element, "div") [(Id, "main"); (Class, "a")] 0).
  vm_compute. reflexivity.
Defined.

(** X10. The builder [combine] returns starts afresh: whatever fragments
    its operands hold, any accepted list of fragment calls chained on it
    returns, and the text is the combined text followed by the rendered
    fragments. *)
Theorem fragments_after_combine (h : Heap) (a b : loc) (sa sb : CssCreator.t)
    (cb : string) (cs : list fragment) :
  h !! a = Some sa →
  h !! b = Some sb →
  accepted cs →
  ((r ← cssSelectorBuilder.combine a cb b; r' ← calls r cs; call_stringify r') h).1
  = Return (CssCreator.template sa +:+ " " +:+ cb +:+ " " +:+ CssCreator.template sb
            +:+ concat_strings (render <$> cs)).
Proof.
  intros Ha Hb Hacc. apply accepted_unique in Hacc as [Hs Hu].
  unfold mbind, HM_bind. rewrite (combine_unfold _ _ _ sa sb) by done.
  set (st := appended (CssCreator.template sa +:+ " " +:+ cb +:+ " "
                       +:+ CssCreator.template sb) (CssCreator.constructor None)).
  rewrite (calls_returns cs _ _ st); [|by apply list_lookup_middle|done|done|..].
  - rewrite insert_app_r_alt by lia. rewrite Nat.sub_diag. cbn [insert list_insert].
    rewrite (call_stringify_lookup _ _ _ (list_lookup_middle _ _ _ _ eq_refl)).
    cbn [fst]. rewrite after_calls_template. unfold st, appended.
    cbn [CssCreator.template CssCreator.with_template CssCreator.constructor].
    by rewrite append_nil_l, !append_assoc.
  - intros c _. by destruct c as [[] v].
  - intros k Hk. specialize (Hu k Hk). by destruct k.
Qed.

Lemma fragments_after_combine_witness :
  ((r ← cssSelectorBuilder.combine 0 "+" 1;
    r' ← calls r [(Element, "span"); (Class, "c")];
    call_stringify r')
     [after_call (Element, "div") (CssCreator.constructor None);
      after_call (Element, "p") (CssCreator.constructor None)]).1
  = Return ("div" +:+ " " +:+ "+" +:+ " " +:+ "p"
            +:+ concat_strings (render <$> [(Element, "span"); (Class, "c")])).
Proof.
  apply (fragments_after_combine
           [after_call (Element, "div") (CssCreator.constructor None);
            after_call (Element, "p") (CssCreator.constructor None)]
           0 1
           (after_call (Element, "div") (CssCreator.constructor None))
           (after_call (Element, "p") (CssCreator.constructor None))
           "+" [(Element, "span"); (Class, "c")]).
  - reflexivity.
  - reflexivity.
  - unfold accepted, nondecreasing. vm_compute.
    repeat split; try lia; repeat constructor; discriminate.
Defined.

Section Text.

Import CssCreator.

Lemma perform_template r op (h : Heap) st :
  h !! r = Some st →
  ∃ st', perform r op h !! r = Some st'
    ∧ template st' = template st +:+ contribution r op h.
Proof.
  intros Hr. assert (Hlen : r < length h) by by eapply lookup_lt_Some.
  destruct op as [c|s1 cb s2|]; unfold perform, contribution;
    rewrite (invoke_lookup _ _ _ st Hr); cbn [fst snd];
    (eexists; split; [by apply list_lookup_insert_eq|]).
  - rewrite method_unfold.
    destruct (order_ok c.1 st);
      [destruct (unique_kind c.1 && bool_decide (1 ≤ counter c.1 st))|];
      cbn [fst snd returns]; destruct c as [[] v]; cbn; by rewrite ?append_nil_r.
  - done.
  - cbn. by rewrite append_nil_r.
Qed.

End Text.

(** X16. The text of a builder is exactly what the calls that returned
    put there: after any run of fragment calls, [combine] calls and
    [stringify] calls, it is the text held before followed, in call order,
    by the rendered form of each fragment call that returned and the joined
    text of each [combine]; a call that threw adds nothing. *)
Theorem text_is_what_returned_calls_added (r : loc) (ops : list operation)
    (h : Heap) (st : CssCreator.t) :
  h !! r = Some st →
  (call_stringify r (perform_all r ops h)).1
  = Return (CssCreator.template st +:+ concat_strings (contributions r ops h)).
Proof.
  revert h st. induction ops as [|op ops IH]; intros h st Hr.
  - cbn [perform_all fold_left contributions concat_strings].
    by rewrite (call_stringify_lookup _ _ st Hr), append_nil_r.
  - destruct (perform_template r op h st Hr) as (st1 & Hr1 & Htpl).
    cbn [perform_all fold_left contributions concat_strings].
    fold (perform_all r ops (perform r op h)).
    by rewrite (IH _ _ Hr1), Htpl, append_assoc.
Qed.

Lemma text_is_what_returned_calls_added_witness :
  (call_stringify 0
     (perform_all 0
        [OpFragment (Class, "a"); OpFragment (Element, "b"); OpFragment (Class, "c")]
        [after_call (Element, "div") (CssCreator.constructor None)])).1
  = Return ("div" +:+ concat_strings
              (contributions 0
                 [OpFragment (Class, "a"); OpFragment (Element, "b");
                  OpFragment (Class, "c")]
                 [after_call (Element, "div") (CssCreator.constructor None)])).
Proof.
  apply (text_is_what_returned_calls_added 0
           [OpFragment (Class, "a"); OpFragment (Element, "b"); OpFragment (Class, "c")]
           [after_call (Element, "div") (CssCreator.constructor None)]
           (after_call (Element, "div") (CssCreator.constructor None))).
  reflexivity.
Defined.

Example text_after_a_caught_throw :
  (call_stringify 0
     (perform_all 0
        [OpFragment (Class, "a"); OpFragment (Element, "b"); OpFragment (Class, "c")]
        [after_call (Element, "div") (CssCreator.constructor None)])).1
  = Return "div.a.c".
Proof. reflexivity. Qed.

Section FromJSON.

Import JSON.

Lemma skip_ws_blank s :
  Forall (λ c, c = " "%char ∨ c = "009"%char ∨ c = "010"%char ∨ c = "013"%char) s →
  skip_ws s = [].
Proof.
  induction 1 as [|c s Hc _ IH]; [done|].
  by destruct Hc as [-> | [-> | [-> | ->]]].
Qed.

Lemma parse_blank text : blank text → parse text = Throw SyntaxError.
Proof.
  intros Hb. unfold parse. cbn [parse_value]. by rewrite skip_ws_blank.
Qed.

End FromJSON.

(** X11. [fromJSON(proto, getJSON(v))] for any plain value, not only an
    object: an array comes back with its items and the prototype [proto],
    a number, string or boolean comes back as it was, and for [null]
    [Object.setPrototypeOf] throws a [TypeError]. *)
Theorem fromJSON_getJSON_any {Method} (proto : Prototype Method) (v : JSON.value) :
  plain v →
  fromJSON proto (getJSON v)
  = match v with
    | JSON.JNull => Throw TypeError
    | JSON.JObject _ | JSON.JArray _ => Return (WithPrototype proto v)
    | JSON.JBool _ | JSON.JNumber _ | JSON.JNotFinite _ | JSON.JString _ =>
        Return (Primitive v)
    end.
Proof.
  intros Hplain. unfold fromJSON, getJSON. rewrite parse_stringify by done.
  by destruct v.
Qed.

Lemma fromJSON_getJSON_any_witness :
  fromJSON [("size", tt)]
    (getJSON (JSON.JArray [JSON.JNumber 1; JSON.JString "a"; JSON.JNull]))
  = Return (WithPrototype [("size", tt)]
              (JSON.JArray [JSON.JNumber 1; JSON.JString "a"; JSON.JNull])).
Proof.
  apply (fromJSON_getJSON_any [("size", tt)]
           (JSON.JArray [JSON.JNumber 1; JSON.JString "a"; JSON.JNull])).
  repeat constructor; lia.
Defined.

(** X12. [getJSON] loses nothing: two plain values with the same text are
    the same value. *)
Theorem getJSON_injective (v1 v2 : JSON.value) :
  plain v1 → plain v2 → getJSON v1 = getJSON v2 → v1 = v2.
Proof.
  intros H1 H2 Heq. unfold getJSON in Heq.
  pose proof (parse_stringify v1 H1) as Hp1.
  rewrite Heq, (parse_stringify v2 H2) in Hp1. congruence.
Qed.

Lemma getJSON_injective_witness :
  JSON.JObject [("radius", JSON.JNumber 10)]
  = JSON.JObject [("radius", JSON.JNumber 10)].
Proof.
  apply (getJSON_injective (JSON.JObject [("radius", JSON.JNumber 10)])
           (JSON.JObject [("radius", JSON.JNumber 10)]));
    [apply plain_object; [apply NoDup_singleton|repeat constructor; lia]..
    |reflexivity].
Defined.

(** X13. On an empty text, or one made of whitespace only, [fromJSON]
    throws the [SyntaxError] of [JSON.parse], whatever the prototype: the
    function has no handler of its own. *)
Theorem fromJSON_blank_text {Method} (proto : Prototype Method) (text : string) :
  blank text → fromJSON proto text = Throw SyntaxError.
Proof. intros Hb. unfold fromJSON. by rewrite parse_blank. Qed.

Lemma fromJSON_blank_text_witness :
  fromJSON [("size", tt)] "  " = Throw SyntaxError.
Proof.
  apply (fromJSON_blank_text [("size", tt)] "  ").
  unfold blank. cbn. repeat constructor.
Defined.

Section RectangleArea.

Lemma SFmul_comm prec emax x y : SFmul prec emax x y = SFmul prec emax y x.
Proof.
  destruct x as [sx|sx| |sx mx ex], y as [sy|sy| |sy my ey]; cbn; try reflexivity;
    try (f_equal; apply xorb_comm).
  by rewrite (xorb_comm sx sy), (Pos.mul_comm mx my), (Z.add_comm ex ey).
Qed.

Lemma float_mul_comm (x y : float) : (x * y = y * x)%float.
Proof. apply Prim2SF_inj. rewrite !mul_spec. apply SFmul_comm. Qed.

Lemma float_mul_nan_r (x : float) : (x * nan = nan)%float.
Proof.
  apply Prim2SF_inj. rewrite mul_spec.
  change (Prim2SF nan) with S754_nan. by destruct (Prim2SF x).
Qed.

End RectangleArea.

(** X14. The area does not depend on which side is given first:
    [Rectangle(w, h).getArea()] and [Rectangle(h, w).getArea()] are the
    same number. *)
Theorem Rectangle_area_symmetric (w h : number) :
  getArea (Rectangle w h) () = getArea (Rectangle h w) ().
Proof. cbn. apply float_mul_comm. Qed.

(** X15. Nothing is validated: with NaN for either side the object is
    built all the same, it keeps the other side as given, and its area is
    NaN. *)
Theorem Rectangle_nan_side (x : number) :
  width (Rectangle x nan) = x
  ∧ height (Rectangle nan x) = x
  ∧ getArea (Rectangle x nan) () = nan
  ∧ getArea (Rectangle nan x) () = nan.
Proof.
  split_and!; [done|done|apply float_mul_nan_r|].
  cbn. rewrite float_mul_comm. apply float_mul_nan_r.
Qed.
